(** * KG-homework: the evaluation script [back_end/evaluate.py]

    A shallow embedding of the metric computation of [evaluate.py]
    (token F1, Hits@1, the hallucination-correction rate HDR, the error
    classifier and the relation bucketer) and the properties its
    specification states about them.

    Conventions of the embedding:
    - a Python [str] is the list of its Unicode code points;
    - a Python [set] of strings is a [gset str];
    - a Python [float] is the rational it denotes; every float operation
      is the exact operation followed by a rounding [rnd] (class
      [Rounding]), so that the results hold for exact arithmetic and for
      binary floating point alike;
    - an exception is a [Raise] in the [result] monad;
    - [query_handler] (module [handler]) and [TEST_CASES] (the file
      [test_cases.json]) are parameters;
    - what [evaluate] prints and writes to [evaluation_results.csv] is
      returned as a record; the rows of the report repeat the values of
      the loop and are left out. *)

From Stdlib Require Import QArith Qround Qpower Lqa String Ascii NArith ZArith Lia.
From stdpp Require Import gmap list.

(** ** Python strings *)

Abbreviation char := N (only parsing).
Abbreviation str := (list N) (only parsing).

Module Utf8.

(** The source file is UTF-8; a literal is read from its bytes.  [k] is
    the number of continuation bytes still expected and [acc] the code
    point collected so far. *)
Fixpoint decode (bs : list N) (acc : N) (k : nat) : str :=
  match bs with
  | [] => []
  | b :: bs' =>
      match k with
      | S k' =>
          let acc' := (acc * 64 + b mod 64)%N in
          match k' with
          | O => acc' :: decode bs' 0%N O
          | S _ => decode bs' acc' k'
          end
      | O =>
          if (b <? 128)%N then b :: decode bs' 0%N O
          else if (b <? 224)%N then decode bs' (b mod 32)%N 1
          else if (b <? 240)%N then decode bs' (b mod 16)%N 2
          else decode bs' (b mod 8)%N 3
      end
  end.

Definition lit (s : string) : str :=
  decode (List.map N_of_ascii (list_ascii_of_string s)) 0%N O.

End Utf8.

Arguments Utf8.lit s%_string.
Abbreviation u := Utf8.lit (only parsing).

(** The tables of the Unicode database that [evaluate.py] reaches through
    [str.lower], [str.split] and the classes [\w] and [\s] of [re]. *)
Class Unicode := {
  lower : str -> str;        (* str.lower() *)
  isalnum : char -> bool;    (* Py_UNICODE_ISALNUM *)
  isspace : char -> bool;    (* Py_UNICODE_ISSPACE *)
}.

Module Py.
Section Strings.
Context {U : Unicode}.

Definition SPACE : char := 32%N.
Definition NEWLINE : char := 10%N.
Definition UNDERSCORE : char := 95%N.

(** [\w] and [\s] for a [str] pattern. *)
Definition is_word (c : char) : bool := isalnum c || (c =? UNDERSCORE)%N.
Definition is_space (c : char) : bool := isspace c.

(** [re.sub(r'[^\w\s]', ' ', s)]: the pattern matches one character at a
    time, so every character outside both classes becomes a space. *)
Definition sub_nonword_space (s : str) : str :=
  List.map (fun c => if is_word c || is_space c then c else SPACE) s.

(** [s.split()]: the maximal runs of non-whitespace characters.  [cur]
    is the run being read, in reverse. *)
Definition flush (cur : str) : list str :=
  match cur with [] => [] | _ :: _ => [rev cur] end.

Fixpoint split_from (cur : str) (s : str) : list str :=
  match s with
  | [] => flush cur
  | c :: s' =>
      if isspace c then flush cur ++ split_from [] s'
      else split_from (c :: cur) s'
  end.

Definition split (s : str) : list str := split_from [] s.

(** [sep.join(l)] *)
Fixpoint join (sep : str) (l : list str) : str :=
  match l with
  | [] => []
  | [x] => x
  | x :: l' => x ++ sep ++ join sep l'
  end.

(** [sub in s] *)
Fixpoint starts_with (p s : str) : bool :=
  match p, s with
  | [], _ => true
  | _ :: _, [] => false
  | a :: p', b :: s' => (a =? b)%N && starts_with p' s'
  end.

Fixpoint contains (sub s : str) : bool :=
  starts_with sub s ||
  match s with
  | [] => false
  | _ :: s' => contains sub s'
  end.

End Strings.
End Py.

(** ** Exceptions *)

Inductive exn := ZeroDivisionError.

Inductive result (A : Type) := Ok (a : A) | Raise (e : exn).
Arguments Ok {A} a.
Arguments Raise {A} e.

#[global] Instance result_ret : MRet result := fun A a => Ok a.
#[global] Instance result_bind : MBind result := fun A B f m =>
  match m with Ok a => f a | Raise e => Raise e end.

(** ** Floats *)

(** [rnd] rounds a rational to the float format.  The laws are those of a
    rounding to nearest in a binary format, away from the ends of its
    exponent range: they hold of exact arithmetic ([exact]) and of the
    rounding of binary64 ([binary64]).  [rnd_double]: doubling a float is
    exact. *)
Class Rounding := {
  rnd : Q -> Q;
  rnd_proper : Proper (Qeq ==> Qeq) rnd;
  rnd_mono : forall x y, (x <= y)%Q -> (rnd x <= rnd y)%Q;
  rnd_0 : (rnd 0 == 0)%Q;
  rnd_1 : (rnd 1 == 1)%Q;
  rnd_double : forall x, (rnd (2 * rnd x) == 2 * rnd x)%Q;
}.
#[global] Existing Instance rnd_proper.

Module Float.
Section Ops.
Context {R : Rounding}.

Definition of_nat (n : nat) : Q := inject_Z (Z.of_nat n).

Definition add (x y : Q) : Q := rnd (x + y).
Definition mul (x y : Q) : Q := rnd (x * y).

(** [x / y] on floats *)
Definition div (x y : Q) : result Q :=
  if Qeq_bool y 0 then Raise ZeroDivisionError else Ok (rnd (x / y)).

(** [a / b] on ints: the correctly rounded quotient *)
Definition truediv (a b : nat) : result Q :=
  match b with
  | O => Raise ZeroDivisionError
  | S _ => Ok (rnd (of_nat a / of_nat b))
  end.

(** [x > 0] *)
Definition gt0 (x : Q) : bool := negb (Qle_bool x 0).

End Ops.
End Float.

(** The rounding of Python's floats: to nearest, ties to even, with a
    significand of 53 bits.  The exponent is not bounded: no quantity of
    this program comes near the ends of the range of binary64. *)
Module Binary64.
Local Open Scope Q_scope.

(** Round half to even, to an integer. *)
Definition rne (q : Q) : Z :=
  let f := Qfloor q in
  match Qcompare (q - inject_Z f) (1 # 2) with
  | Lt => f
  | Gt => (f + 1)%Z
  | Eq => if Z.even f then f else (f + 1)%Z
  end.

(** The binade of a positive [q]: [2 ^ e <= q < 2 ^ (e + 1)]. *)
Definition binade (q : Q) : Z :=
  let e0 := (Z.log2 (Qnum q) - Z.log2 (Zpos (Qden q)))%Z in
  if Qle_bool (2 ^ e0) q then e0 else (e0 - 1)%Z.

(** A positive [q] rounded to a significand of 53 bits. *)
Definition round_pos (q : Q) : Q :=
  let e := (binade q - 52)%Z in
  inject_Z (rne (q / 2 ^ e)) * 2 ^ e.

Definition round (q : Q) : Q :=
  match Qcompare q 0 with
  | Eq => 0
  | Gt => round_pos q
  | Lt => - round_pos (- q)
  end.

End Binary64.

(** ** [evaluate.py] *)

Section Scorer.
Context {U : Unicode} {R : Rounding}.

Definition normalize_answer (text : str) : gset str :=
  match text with
  | [] => ∅
  | _ :: _ => list_to_set (Py.split (Py.sub_nonword_space (lower text)))
  end.

Definition answer_f1 (pred : str) (gold : list str) : result Q :=
  let pred_tokens := normalize_answer pred in
  let gold_tokens := normalize_answer (Py.join (u " ") gold) in
  if decide (gold_tokens = ∅) then
    Ok (if decide (pred_tokens = ∅) then 1 else 0)%Q
  else if decide (pred_tokens = ∅) then
    Ok 0%Q
  else
    let common := pred_tokens ∩ gold_tokens in
    precision ← Float.truediv (size common) (size pred_tokens);
    recall ← Float.truediv (size common) (size gold_tokens);
    if Float.gt0 (Float.add precision recall) then
      Float.div (Float.mul (Float.mul 2 precision) recall)
                (Float.add precision recall)
    else Ok 0%Q.

End Scorer.

(** ** Regular expressions

    The five question patterns are matched with [re.search], whose result
    is only tested for truth.  [matches] is the language of a pattern,
    [search] the executable test by derivatives; groups capture and do not
    change what is matched. *)

Module Re.

Inductive regex :=
| Void
| Eps
| Chr (c : char)
| Dot
| Cat (r1 r2 : regex)
| Alt (r1 r2 : regex)
| Star (r : regex)
| Plus (r : regex)
| Group (r : regex).

(** A run of literal characters. *)
Fixpoint lit (s : str) : regex :=
  match s with
  | [] => Eps
  | c :: s' => Cat (Chr c) (lit s')
  end.

(** [.] matches any character but a newline (no DOTALL flag). *)
Inductive matches : regex -> str -> Prop :=
| m_eps : matches Eps []
| m_chr c : matches (Chr c) [c]
| m_dot c : c ≠ Py.NEWLINE -> matches Dot [c]
| m_cat r1 r2 s1 s2 :
    matches r1 s1 -> matches r2 s2 -> matches (Cat r1 r2) (s1 ++ s2)
| m_alt_l r1 r2 s : matches r1 s -> matches (Alt r1 r2) s
| m_alt_r r1 r2 s : matches r2 s -> matches (Alt r1 r2) s
| m_star_nil r : matches (Star r) []
| m_star_app r s1 s2 :
    matches r s1 -> matches (Star r) s2 -> matches (Star r) (s1 ++ s2)
| m_plus r s1 s2 :
    matches r s1 -> matches (Star r) s2 -> matches (Plus r) (s1 ++ s2)
| m_group r s : matches r s -> matches (Group r) s.

Fixpoint nullable (r : regex) : bool :=
  match r with
  | Void => false
  | Eps => true
  | Chr _ => false
  | Dot => false
  | Cat r1 r2 => nullable r1 && nullable r2
  | Alt r1 r2 => nullable r1 || nullable r2
  | Star _ => true
  | Plus r => nullable r
  | Group r => nullable r
  end.

Fixpoint deriv (c : char) (r : regex) : regex :=
  match r with
  | Void => Void
  | Eps => Void
  | Chr c' => if (c =? c')%N then Eps else Void
  | Dot => if (c =? Py.NEWLINE)%N then Void else Eps
  | Cat r1 r2 =>
      if nullable r1 then Alt (Cat (deriv c r1) r2) (deriv c r2)
      else Cat (deriv c r1) r2
  | Alt r1 r2 => Alt (deriv c r1) (deriv c r2)
  | Star r => Cat (deriv c r) (Star r)
  | Plus r => Cat (deriv c r) (Star r)
  | Group r => deriv c r
  end.

(** Does a prefix of [s] match [r]? *)
Fixpoint match_prefix (r : regex) (s : str) : bool :=
  nullable r ||
  match s with
  | [] => false
  | c :: s' => match_prefix (deriv c r) s'
  end.

(** [re.search(r, s)] is not [None]. *)
Fixpoint search (r : regex) (s : str) : bool :=
  match_prefix r s ||
  match s with
  | [] => false
  | _ :: s' => search r s'
  end.

End Re.

(** [any(l)] *)
Definition any (l : list bool) : bool := existsb id l.

Section Evaluate.
Context {U : Unicode} {R : Rounding}.

Definition classify_error (question : str) (golden system_pred : list str)
    (matched : bool) : str :=
  if negb matched then u "pattern_mismatch"
  else match system_pred with
  | [] => u "kg_missing"
  | _ :: _ =>
      if decide (list_to_set system_pred =@{gset str} list_to_set golden)
      then u "correct"
      else u "wrong_retrieval"
  end.

Definition get_relation_type (question : str) : str :=
  if Py.contains (u "作词") question then u "作词"
  else if Py.contains (u "唱") question || Py.contains (u "歌手") question
  then u "歌手"
  else u "其他".

(** A record of [test_cases.json]. *)
Record TestCase := {
  question : str;
  golden_answer : list str;
  llm_answer : str;
}.

(** What [query_handler] returns: [res["state"]] and [res["data"]]. *)
Record Response := {
  state : Z;
  data : list str;
}.

(** [handler.query_handler], the system under evaluation. *)
Variable query_handler : str -> Response.

(** The question patterns of lines 73 to 79. *)
Definition patterns : list Re.regex :=
  [ Re.Cat (Re.lit (u "歌曲")) (Re.Cat (Re.Group (Re.Plus Re.Dot)) (Re.lit (u "的作词人是")));
    Re.Cat (Re.Group (Re.Plus Re.Dot)) (Re.lit (u "是谁唱的"));
    Re.Cat (Re.lit (u "谁唱的")) (Re.Group (Re.Plus Re.Dot));
    Re.Cat (Re.lit (u "谁作词的")) (Re.Group (Re.Plus Re.Dot));
    Re.Cat (Re.Group (Re.Plus Re.Dot)) (Re.lit (u "是哪个专辑的")) ].

Definition matched (question : str) : bool :=
  any (List.map (fun p => Re.search p question) patterns).

(** An entry of [relation_stats]. *)
Record RelStat := {
  rs_p : Q;
  rs_r : Q;
  rs_f1 : Q;
  rs_count : nat;
}.

(** The variables the loop of [evaluate] updates. *)
Record Totals := {
  f1_total : Q;
  hits_at_1 : nat;
  hdr_numerator : nat;
  hdr_denominator : nat;
  error_stats : gmap str nat;
  relation_stats : gmap str RelStat;
}.

Definition init : Totals := {|
  f1_total := 0;
  hits_at_1 := 0;
  hdr_numerator := 0;
  hdr_denominator := 0;
  error_stats := ∅;
  relation_stats :=
    {[ u "歌手" := {| rs_p := 0; rs_r := 0; rs_f1 := 0; rs_count := 0 |};
       u "作词" := {| rs_p := 0; rs_r := 0; rs_f1 := 0; rs_count := 0 |} ]};
|}.

(** [res["data"] if res["state"] == 0 else []] *)
Definition system_answer (question : str) : list str :=
  let res := query_handler question in
  if (state res =? 0)%Z then data res else [].

(** The test of line 86. *)
Definition hit (system_ans golden : list str) : bool :=
  match system_ans with
  | [] => false
  | _ :: _ =>
      bool_decide (list_to_set system_ans ∩ list_to_set golden ≠@{gset str} ∅)
  end.

(** Line 90. *)
Definition llm_correct (llm_ans : str) (golden : list str) : bool :=
  bool_decide (list_to_set (List.map lower golden) ⊆ normalize_answer llm_ans).

(** The test of line 93. *)
Definition covers (system_ans golden : list str) : bool :=
  bool_decide (list_to_set golden ⊆@{gset str} list_to_set system_ans).

(** [d[k] += 1] on a [defaultdict(int)] *)
Definition incr (k : str) (d : gmap str nat) : gmap str nat :=
  <[k := S (default 0%nat (d !! k))]> d.

(** The body of the loop, lines 61 to 104. *)
Definition loop_body (st : Totals) (test_case : TestCase) : result Totals :=
  let question := question test_case in
  let golden := golden_answer test_case in
  let llm_ans := llm_answer test_case in
  let system_ans := system_answer question in
  let final_str := Py.join (u ", ") system_ans in
  let matched := matched question in
  f1 ← answer_f1 final_str golden;
  let err_type := classify_error question golden system_ans matched in
  let rel := get_relation_type question in
  Ok {|
    f1_total := Float.add (f1_total st) f1;
    hits_at_1 :=
      if hit system_ans golden then S (hits_at_1 st) else hits_at_1 st;
    hdr_numerator :=
      if negb (llm_correct llm_ans golden) && covers system_ans golden
      then S (hdr_numerator st) else hdr_numerator st;
    hdr_denominator :=
      if negb (llm_correct llm_ans golden)
      then S (hdr_denominator st) else hdr_denominator st;
    error_stats := incr err_type (error_stats st);
    relation_stats :=
      alter (fun s => {| rs_p := rs_p s; rs_r := rs_r s;
                         rs_f1 := Float.add (rs_f1 s) f1;
                         rs_count := S (rs_count s) |})
            rel (relation_stats st);
  |}.

(** [for x in l: body] *)
Fixpoint for_each {A S : Type} (body : S -> A -> result S) (st : S)
    (l : list A) : result S :=
  match l with
  | [] => Ok st
  | x :: l' => st' ← body st x; for_each body st' l'
  end.

(** Line 120. *)
Definition hdr_rate (numerator denominator : nat) : result Q :=
  if (0 <? denominator)%nat then
    q ← Float.truediv numerator denominator;
    Ok (Float.mul q 100)
  else Ok 0%Q.

(** The metrics that [evaluate] prints and writes to the summary row. *)
Record Summary := {
  totals : Totals;
  avg_f1 : Q;
  hits_at_1_rate : Q;
  hdr : Q;
  relation_avg_f1 : list (str * Q);
}.

(** Lines 133 to 136: the buckets with a sample. *)
Fixpoint relation_report (stats : gmap str RelStat) (rels : list str)
    : result (list (str * Q)) :=
  match rels with
  | [] => Ok []
  | rel :: rels' =>
      match stats !! rel with
      | Some stat =>
          if (0 <? rs_count stat)%nat then
            q ← Float.div (rs_f1 stat) (Float.of_nat (rs_count stat));
            rest ← relation_report stats rels';
            Ok ((rel, Float.mul q 100) :: rest)
          else relation_report stats rels'
      | None => relation_report stats rels'
      end
  end.

Definition evaluate (TEST_CASES : list TestCase) : result Summary :=
  let total := length TEST_CASES in
  st ← for_each loop_body init TEST_CASES;
  q ← Float.div (f1_total st) (Float.of_nat total);
  let avg_f1 := Float.mul q 100 in
  h ← Float.truediv (hits_at_1 st) total;
  let hits_at_1_rate := Float.mul h 100 in
  hdr ← hdr_rate (hdr_numerator st) (hdr_denominator st);
  report ← relation_report (relation_stats st) [u "歌手"; u "作词"];
  Ok {| totals := st; avg_f1 := avg_f1; hits_at_1_rate := hits_at_1_rate;
        hdr := hdr; relation_avg_f1 := report |}.

End Evaluate.

(** ** Instances *)

(** Exact arithmetic: no rounding at all. *)
Definition exact : Rounding :=
  Build_Rounding (fun x => x) (fun x y H => H) (fun x y H => H)
    (Qeq_refl 0) (Qeq_refl 1) (fun x => Qeq_refl (2 * x)).

(** The Unicode tables on the blocks the corpus is written in: Basic Latin
    and the CJK unified ideographs, with the full list of whitespace
    characters.  The ideographs are letters without case.  Outside these
    blocks the tables are cut short: a code point is left as it is by
    [lower] and is no letter or digit.  The tables serve the runs on
    concrete inputs only; the properties hold for every [Unicode]. *)
Module Tables.

Definition in_range (lo hi c : N) : bool := ((lo <=? c) && (c <=? hi))%N.

Definition lower_char (c : char) : char :=
  if in_range 65 90 c then (c + 32)%N else c.

Definition isalnum (c : char) : bool :=
  in_range 48 57 c || in_range 65 90 c || in_range 97 122 c
  || in_range 0x3400 0x4DBF c || in_range 0x4E00 0x9FFF c.

Definition isspace (c : char) : bool :=
  in_range 9 13 c || in_range 28 32 c || (c =? 0x85)%N || (c =? 0xA0)%N
  || (c =? 0x1680)%N || in_range 0x2000 0x200A c || (c =? 0x2028)%N
  || (c =? 0x2029)%N || (c =? 0x202F)%N || (c =? 0x205F)%N
  || (c =? 0x3000)%N.

Definition latin_cjk : Unicode :=
  Build_Unicode (List.map lower_char) isalnum isspace.

End Tables.

(** ** The vocabulary of the properties *)

Section Vocabulary.
Context {U : Unicode} {R : Rounding}.
Variable query_handler : str -> Response.

(** The score of the last branch of [answer_f1]: the rounded harmonic
    mean of two floats, or [0.0] when their sum is not positive. *)
Definition f_measure (precision recall v : Q) : Prop :=
  ((0 < rnd (precision + recall))%Q ->
   (v == rnd (rnd (rnd (2 * precision) * recall)
              / rnd (precision + recall)))%Q) /\
  ((rnd (precision + recall) <= 0)%Q -> v = 0%Q).

(** Two results are the same when both raise the same exception or both
    return the same number. *)
Definition same_result (a b : result Q) : Prop :=
  match a, b with
  | Ok x, Ok y => (x == y)%Q
  | Raise e, Raise e' => e = e'
  | _, _ => False
  end.

(** The four error categories. *)
Definition categories : list str :=
  [u "pattern_mismatch"; u "kg_missing"; u "correct"; u "wrong_retrieval"].

(** The sum of the counts of the four categories in [error_stats]. *)
Definition category_total (d : gmap str nat) : nat :=
  sum_list (List.map (fun c => default 0%nat (d !! c)) categories).

(** The question of the scenario. *)
Definition yequ : str := u "谁唱的夜曲".

(** The tests of the loop on a test case. *)
Definition case_hit (tc : TestCase) : bool :=
  hit (system_answer query_handler (question tc)) (golden_answer tc).

Definition case_baseline_wrong (tc : TestCase) : bool :=
  negb (llm_correct (llm_answer tc) (golden_answer tc)).

Definition case_corrected (tc : TestCase) : bool :=
  case_baseline_wrong tc
  && covers (system_answer query_handler (question tc)) (golden_answer tc).

Definition count (f : TestCase -> bool) (l : list TestCase) : nat :=
  length (List.filter f l).

End Vocabulary.

(** ** The vocabulary of the further properties *)

Section FurtherVocabulary.
Context {U : Unicode} {R : Rounding}.
Variable query_handler : str -> Response.

(** A word character, as [\w] reads it. *)
Definition word_char (c : char) : Prop := Py.is_word c = true.

(** A string that is no token: empty, or with a character that is
    whitespace or no word character. *)
Definition not_a_token (s : str) : Prop :=
  s = [] \/ exists c, c ∈ s /\ (isspace c = true \/ Py.is_word c = false).

Definition COMMA : char := 44%N.

(** Tables under which the separators [" "] and [", "] keep answers
    apart: [lower] works on each part of a string by itself (Python's does,
    but for a Greek capital sigma, whose lower case depends on what is
    next to it) and leaves a space and a comma alone, a space is
    whitespace, and a comma is no letter or digit. *)
Definition plain_separators : Prop :=
  (forall a b : str, lower (a ++ b) = lower a ++ lower b) /\
  lower [Py.SPACE] = [Py.SPACE] /\
  lower [COMMA] = [COMMA] /\
  isspace Py.SPACE = true /\
  isalnum COMMA = false.

(** The tokens of a text, in the order [split] returns them. *)
Definition tokens_of (text : str) : list str :=
  Py.split (Py.sub_nonword_space (lower text)).

(** The category the loop files a test case under. *)
Definition case_category (tc : TestCase) : str :=
  classify_error (question tc) (golden_answer tc)
    (system_answer query_handler (question tc)) (matched (question tc)).

(** The cases of a category, and the cases of a relation tag. *)
Definition in_category (c : str) (tc : TestCase) : bool :=
  bool_decide (case_category tc = c).

Definition has_relation (rel : str) (tc : TestCase) : bool :=
  bool_decide (get_relation_type (question tc) = rel).

(** [rnd] keeps the integers up to [n]. *)
Definition keeps_nat (n : nat) : Prop :=
  forall k : nat, (k <= n)%nat -> (rnd (Float.of_nat k) == Float.of_nat k)%Q.

(** What a group [(.+)] captures: a string that is not empty and has no
    newline. *)
Definition captured (x : str) : Prop :=
  x ≠ [] /\ Forall (fun c => c ≠ Py.NEWLINE) x.

(** [question] holds a captured [x] and then [l]; or [l] and then [x];
    or [x] between [l1] and [l2]. *)
Definition group_before (l question : str) : Prop :=
  exists pre x post, question = pre ++ x ++ l ++ post /\ captured x.

Definition group_after (l question : str) : Prop :=
  exists pre x post, question = pre ++ l ++ x ++ post /\ captured x.

Definition group_between (l1 l2 question : str) : Prop :=
  exists pre x post,
    question = pre ++ l1 ++ x ++ l2 ++ post /\ captured x.

End FurtherVocabulary.

(** * Properties *)

(** ** Literals *)

Example lit_ascii : u "a b" = [97; 32; 98]%N.
Proof. reflexivity. Qed.

Example lit_cjk : u "谁唱的夜曲" = [0x8C01; 0x5531; 0x7684; 0x591C; 0x66F2]%N.
Proof. reflexivity. Qed.

(** ** The derivative matcher decides the language of a pattern *)

Module ReFacts.
Import Re.

Create HintDb re.
#[local] Hint Constructors matches : re.

Lemma matches_nil_nullable r s : matches r s -> s = [] -> nullable r = true.
Proof.
  induction 1 as [ | | | r1 r2 s1 s2 _ IH1 _ IH2 | r1 r2 s _ IH
                 | r1 r2 s _ IH | | | r s1 s2 _ IH1 _ _ | r s _ IH ];
    intros E; simpl; try done.
  - apply app_eq_nil in E as [-> ->]. by rewrite IH1, IH2.
  - by rewrite IH.
  - rewrite IH by done. apply orb_true_r.
  - apply app_eq_nil in E as [-> _]. by apply IH1.
  - by apply IH.
Qed.

Lemma nullable_matches_nil r : nullable r = true -> matches r [].
Proof.
  induction r as [ | | c | | r1 IH1 r2 IH2 | r1 IH1 r2 IH2 | r _ | r IH | r IH ];
    simpl; intros E; try done; eauto with re.
  - apply andb_true_iff in E as [E1 E2].
    change (@nil N) with (@nil N ++ []). eauto with re.
  - apply orb_true_iff in E as [E | E]; eauto with re.
  - change (@nil N) with (@nil N ++ []). eauto with re.
Qed.

Lemma nullable_spec r : nullable r = true <-> matches r [].
Proof.
  split; [apply nullable_matches_nil | intros H; by eapply matches_nil_nullable].
Qed.

Lemma deriv_sound c r : forall s, matches (deriv c r) s -> matches r (c :: s).
Proof.
  induction r as [ | | c' | | r1 IH1 r2 IH2 | r1 IH1 r2 IH2 | r IH | r IH | r IH ];
    simpl; intros s H.
  - inversion H.
  - inversion H.
  - destruct (N.eqb_spec c c') as [-> | _]; inversion H; subst. constructor.
  - destruct (N.eqb_spec c Py.NEWLINE) as [_ | Hne]; inversion H; subst.
    by constructor.
  - destruct (nullable r1) eqn:Hn.
    + inversion H as [ | | | | ? ? ? Hl | ? ? ? Hr | | | | ]; subst.
      * inversion Hl as [ | | | ? ? s1 s2 H1 H2 | | | | | | ]; subst.
        change (c :: s1 ++ s2) with ((c :: s1) ++ s2). eauto with re.
      * change (c :: s) with ([] ++ c :: s).
        constructor; [by apply nullable_matches_nil | by apply IH2].
    + inversion H as [ | | | ? ? s1 s2 H1 H2 | | | | | | ]; subst.
      change (c :: s1 ++ s2) with ((c :: s1) ++ s2). eauto with re.
  - inversion H; subst; eauto with re.
  - inversion H as [ | | | ? ? s1 s2 H1 H2 | | | | | | ]; subst.
    change (c :: s1 ++ s2) with ((c :: s1) ++ s2). eauto with re.
  - inversion H as [ | | | ? ? s1 s2 H1 H2 | | | | | | ]; subst.
    change (c :: s1 ++ s2) with ((c :: s1) ++ s2). eauto with re.
  - constructor. by apply IH.
Qed.

Lemma deriv_complete r t :
  matches r t -> forall c s, t = c :: s -> matches (deriv c r) s.
Proof.
  induction 1 as [ | c' | c' Hne | r1 r2 s1 s2 H1 IH1 H2 IH2 | r1 r2 s0 _ IH
                 | r1 r2 s0 _ IH | | r s1 s2 H1 IH1 H2 IH2
                 | r s1 s2 H1 IH1 H2 IH2 | r s0 _ IH ];
    intros c s E; simpl.
  - done.
  - injection E as -> <-. rewrite N.eqb_refl. constructor.
  - injection E as -> <-.
    destruct (N.eqb_spec c Py.NEWLINE); [done | constructor].
  - destruct s1 as [ | c1 s1']; simpl in E.
    + rewrite (matches_nil_nullable _ _ H1 eq_refl).
      apply m_alt_r. by apply IH2.
    + injection E as -> <-.
      destruct (nullable r1); [apply m_alt_l | ]; constructor; eauto.
  - apply m_alt_l. by apply IH.
  - apply m_alt_r. by apply IH.
  - done.
  - destruct s1 as [ | c1 s1']; simpl in E.
    + by apply IH2.
    + injection E as -> <-. constructor; eauto.
  - destruct s1 as [ | c1 s1']; simpl in E.
    + by apply IH2.
    + injection E as -> <-. constructor; eauto.
  - by apply IH.
Qed.

Lemma deriv_spec c r s : matches (deriv c r) s <-> matches r (c :: s).
Proof.
  split; [apply deriv_sound | intros H; by eapply deriv_complete].
Qed.

Lemma match_prefix_spec r s :
  match_prefix r s = true <-> exists m post, s = m ++ post /\ matches r m.
Proof.
  revert r. induction s as [ | c s IH]; intros r; simpl.
  - rewrite orb_false_r, nullable_spec. split.
    + intros H. by exists [], [].
    + intros (m & post & E & H). symmetry in E.
      apply app_eq_nil in E as [-> _]. done.
  - rewrite orb_true_iff, nullable_spec, IH. split.
    + intros [H | (m & post & -> & H)].
      * by exists [], (c :: s).
      * exists (c :: m), post. split; [done | by apply deriv_spec].
    + intros (m & post & E & H). destruct m as [ | c' m]; [by left | right].
      injection E as <- ->. exists m, post. split; [done | by apply deriv_spec].
Qed.

(** [search r s] holds exactly when a substring of [s] is in the
    language of [r]. *)
Lemma search_spec r s :
  search r s = true <->
  exists pre m post, s = pre ++ m ++ post /\ matches r m.
Proof.
  induction s as [ | c s IH]; cbn [search].
  - rewrite orb_false_r, match_prefix_spec. split.
    + intros (m & post & E & H). by exists [], m, post.
    + intros (pre & m & post & E & H). symmetry in E.
      apply app_eq_nil in E as [-> E]. by exists m, post.
  - rewrite orb_true_iff, match_prefix_spec, IH. split.
    + intros [(m & post & E & H) | (pre & m & post & -> & H)].
      * by exists [], m, post.
      * by exists (c :: pre), m, post.
    + intros (pre & m & post & E & H). destruct pre as [ | c' pre].
      * left. by exists m, post.
      * right. injection E as <- ->. by exists pre, m, post.
Qed.

Lemma matches_lit l : matches (lit l) l.
Proof.
  induction l as [ | c l IH]; simpl; [constructor | ].
  change (c :: l) with ([c] ++ l). constructor; [constructor | done].
Qed.

Lemma matches_lit_inv l s : matches (lit l) s -> s = l.
Proof.
  revert s. induction l as [ | c l IH]; simpl; intros s H.
  - by inversion H.
  - inversion H as [ | | | ? ? s1 s2 H1 H2 | | | | | | ]; subst.
    inversion H1; subst. simpl. f_equal. by apply IH.
Qed.

End ReFacts.


(** ** The rounding of binary64 is a [Rounding] *)

Module Binary64Facts.
Import Binary64.
Local Open Scope Q_scope.

(** *** Powers of two *)

Lemma pow2_pos e : 0 < 2 ^ e.
Proof. apply Qpower_0_lt. reflexivity. Qed.

Lemma pow2_nonzero e : ~ 2 ^ e == 0.
Proof. pose proof (pow2_pos e) as H. intros E. rewrite E in H. discriminate H. Qed.

Lemma pow2_add a b : 2 ^ (a + b) == 2 ^ a * 2 ^ b.
Proof. apply Qpower_plus. discriminate. Qed.

Lemma pow2_succ a : 2 ^ (a + 1) == 2 * 2 ^ a.
Proof. rewrite pow2_add. change (2 ^ 1) with 2. ring. Qed.

Lemma pow2_lt a b : (a < b)%Z -> 2 ^ a < 2 ^ b.
Proof. intros H. apply Qpower_lt_compat_l; [exact H | reflexivity]. Qed.

Lemma pow2_le a b : (a <= b)%Z -> 2 ^ a <= 2 ^ b.
Proof. intros H. apply Qpower_le_compat_l; [exact H | discriminate]. Qed.

Lemma pow2_lt_inv a b : 2 ^ a < 2 ^ b -> (a < b)%Z.
Proof. intros H. apply (Qpower_lt_compat_l_inv 2); [exact H | reflexivity]. Qed.

Lemma pow2_Z a : (0 <= a)%Z -> 2 ^ a == inject_Z (2 ^ a).
Proof. intros H. rewrite Zpower_Qpower by exact H. reflexivity. Qed.

(** *** Rounding to an integer *)

Lemma rne_comp : Proper (Qeq ==> eq) rne.
Proof.
  intros x y E. unfold rne. rewrite (Qfloor_comp _ _ E).
  assert (E' : x - inject_Z (Qfloor y) == y - inject_Z (Qfloor y)) by (rewrite E; reflexivity).
  rewrite (Qcompare_comp _ _ E' _ _ (Qeq_refl _)). reflexivity.
Qed.

Lemma rne_bounds x : (Qfloor x <= rne x <= Qfloor x + 1)%Z.
Proof.
  unfold rne. destruct (Qcompare_spec (x - inject_Z (Qfloor x)) (1 # 2));
    [destruct (Z.even _) | | ]; lia.
Qed.

Lemma rne_Z z : rne (inject_Z z) = z.
Proof.
  unfold rne. rewrite Qfloor_Z.
  destruct (Qcompare_spec (inject_Z z - inject_Z z) (1 # 2)) as [E | E | E];
    [ | reflexivity | ]; exfalso; lra.
Qed.

Lemma rne_mono x y : x <= y -> (rne x <= rne y)%Z.
Proof.
  intros H. pose proof (Qfloor_resp_le _ _ H) as Hf.
  destruct (Z.eq_dec (Qfloor x) (Qfloor y)) as [E | E].
  - unfold rne. rewrite E.
    destruct (Qcompare_spec (x - inject_Z (Qfloor y)) (1 # 2)) as [Ex | Ex | Ex];
      destruct (Qcompare_spec (y - inject_Z (Qfloor y)) (1 # 2)) as [Ey | Ey | Ey];
      try destruct (Z.even _); try lia; exfalso; lra.
  - pose proof (rne_bounds x). pose proof (rne_bounds y). lia.
Qed.

(** *** The binade *)

Lemma pow2_sub a b :
  (0 <= a)%Z -> (0 <= b)%Z ->
  2 ^ (a - b) == inject_Z (2 ^ a) / inject_Z (2 ^ b).
Proof.
  intros Ha Hb. rewrite Qpower_minus by discriminate.
  by rewrite !pow2_Z.
Qed.

Lemma binade_spec q : 0 < q -> 2 ^ binade q <= q < 2 ^ (binade q + 1).
Proof.
  destruct q as [n d]. intros Hq.
  assert (Hn : (0 < n)%Z).
  { unfold Qlt in Hq. simpl in Hq. lia. }
  unfold binade. cbn [Qnum Qden].
  set (a := Z.log2 n). set (b := Z.log2 (Z.pos d)).
  pose proof (Z.log2_nonneg n) as Ha. pose proof (Z.log2_nonneg (Z.pos d)) as Hb.
  fold a in Ha. fold b in Hb.
  destruct (Z.log2_spec n Hn) as [Ha1 Ha2].
  destruct (Z.log2_spec (Z.pos d) eq_refl) as [Hb1 Hb2].
  fold a in Ha1, Ha2. fold b in Hb1, Hb2.
  rewrite Z.pow_succ_r in Ha2, Hb2 by done.
  assert (HA : (0 < 2 ^ a)%Z) by (apply Z.pow_pos_nonneg; lia).
  assert (HB : (0 < 2 ^ b)%Z) by (apply Z.pow_pos_nonneg; lia).
  assert (Hhalf : 2 ^ (a - b) == 2 * 2 ^ (a - b - 1)).
  { rewrite <- pow2_succ. by replace (a - b - 1 + 1)%Z with (a - b)%Z by lia. }
  assert (Hlo : 2 ^ (a - b - 1) <= n # d).
  { assert (E : 2 ^ (a - b - 1) == inject_Z (2 ^ a) / inject_Z (2 * 2 ^ b)).
    { apply (Qmult_inj_l _ _ 2); [discriminate | ].
      rewrite <- Hhalf, pow2_sub by done.
      rewrite inject_Z_mult. field.
      change 0 with (inject_Z 0). rewrite inject_Z_injective. lia. }
    rewrite E, (Qmake_Qdiv n d).
    apply Qle_shift_div_l.
    { change 0 with (inject_Z 0). rewrite <- Zlt_Qlt. lia. }
    unfold Qdiv. rewrite <- Qmult_assoc, (Qmult_comm (/ _)), Qmult_assoc.
    apply Qle_shift_div_r.
    { change 0 with (inject_Z 0). rewrite <- Zlt_Qlt. lia. }
    rewrite <- !inject_Z_mult, <- Zle_Qle. nia. }
  assert (Hhi : n # d < 2 ^ (a - b + 1)).
  { rewrite pow2_succ, pow2_sub by done. rewrite (Qmake_Qdiv n d).
    apply Qlt_shift_div_r.
    { change 0 with (inject_Z 0). rewrite <- Zlt_Qlt. lia. }
    unfold Qdiv. rewrite !Qmult_assoc, <- (Qmult_assoc _ (/ _)), (Qmult_comm (/ _)), Qmult_assoc.
    apply Qlt_shift_div_l.
    { change 0 with (inject_Z 0). rewrite <- Zlt_Qlt. lia. }
    change 2 with (inject_Z 2).
    rewrite <- !inject_Z_mult, <- Zlt_Qlt. nia. }
  destruct (Qle_bool (2 ^ (a - b)) (n # d)) eqn:E.
  - apply Qle_bool_iff in E. by split.
  - split; [done | ].
    replace (a - b - 1 + 1)%Z with (a - b)%Z by lia.
    apply Qnot_le_lt. intros H. apply Qle_bool_iff in H. congruence.
Qed.

Lemma binade_unique q e : 2 ^ e <= q < 2 ^ (e + 1) -> binade q = e.
Proof.
  intros [H1 H2].
  assert (Hq : 0 < q) by (eapply Qlt_le_trans; [apply (pow2_pos e) | done]).
  destruct (binade_spec q Hq) as [H3 H4].
  assert (e < binade q + 1)%Z
    by (apply pow2_lt_inv; eapply Qle_lt_trans; [apply H1 | done]).
  assert (binade q < e + 1)%Z
    by (apply pow2_lt_inv; eapply Qle_lt_trans; [apply H3 | done]).
  lia.
Qed.

Lemma binade_comp x y : 0 < x -> x == y -> binade x = binade y.
Proof.
  intros Hx E. symmetry. apply binade_unique. rewrite <- E.
  by apply binade_spec.
Qed.

Lemma binade_mono x y : 0 < x -> x <= y -> (binade x <= binade y)%Z.
Proof.
  intros Hx H.
  destruct (binade_spec x Hx) as [H1 _].
  destruct (binade_spec y) as [_ H2]; [by eapply Qlt_le_trans | ].
  assert (binade x < binade y + 1)%Z; [ | lia].
  apply pow2_lt_inv. eapply Qle_lt_trans; [apply H1 | ].
  by eapply Qle_lt_trans.
Qed.

(** *** The rounding of a positive rational *)

Lemma scaled_range q :
  0 < q ->
  inject_Z (2 ^ 52) <= q / 2 ^ (binade q - 52) < inject_Z (2 ^ 53).
Proof.
  intros Hq. destruct (binade_spec q Hq) as [H1 H2].
  pose proof (pow2_pos (binade q - 52)) as Hp.
  assert (E1 : 2 ^ binade q == inject_Z (2 ^ 52) * 2 ^ (binade q - 52)).
  { rewrite <- pow2_Z, <- pow2_add by done. f_equiv. lia. }
  assert (E2 : 2 ^ (binade q + 1) == inject_Z (2 ^ 53) * 2 ^ (binade q - 52)).
  { rewrite <- pow2_Z, <- pow2_add by done. f_equiv. lia. }
  split.
  - apply Qle_shift_div_l; [done | ]. by rewrite <- E1.
  - apply Qlt_shift_div_r; [done | ]. by rewrite <- E2.
Qed.

Lemma significand_range q :
  0 < q -> (2 ^ 52 <= rne (q / 2 ^ (binade q - 52)) <= 2 ^ 53)%Z.
Proof.
  intros Hq. destruct (scaled_range q Hq) as [H1 H2]. split.
  - rewrite <- (rne_Z (2 ^ 52)). by apply rne_mono.
  - rewrite <- (rne_Z (2 ^ 53)). by apply rne_mono, Qlt_le_weak.
Qed.

Lemma round_pos_range q :
  0 < q -> 2 ^ binade q <= round_pos q <= 2 ^ (binade q + 1).
Proof.
  intros Hq. destruct (significand_range q Hq) as [H1 H2].
  pose proof (pow2_pos (binade q - 52)) as Hp. unfold round_pos.
  assert (E1 : 2 ^ binade q == inject_Z (2 ^ 52) * 2 ^ (binade q - 52)).
  { rewrite <- pow2_Z, <- pow2_add by done. f_equiv. lia. }
  assert (E2 : 2 ^ (binade q + 1) == inject_Z (2 ^ 53) * 2 ^ (binade q - 52)).
  { rewrite <- pow2_Z, <- pow2_add by done. f_equiv. lia. }
  rewrite E1, E2. split.
  - apply Qmult_le_compat_r; [ | by apply Qlt_le_weak]. by rewrite <- Zle_Qle.
  - apply Qmult_le_compat_r; [ | by apply Qlt_le_weak]. by rewrite <- Zle_Qle.
Qed.

Lemma round_pos_pos q : 0 < q -> 0 < round_pos q.
Proof.
  intros Hq. eapply Qlt_le_trans; [apply (pow2_pos (binade q)) | ].
  by apply round_pos_range.
Qed.

Lemma round_pos_comp x y : 0 < x -> x == y -> round_pos x == round_pos y.
Proof.
  intros Hx E. unfold round_pos. rewrite <- (binade_comp x y Hx E).
  assert (E' : x / 2 ^ (binade x - 52) == y / 2 ^ (binade x - 52))
    by (apply Qmult_comp; [exact E | reflexivity]).
  by rewrite (rne_comp _ _ E').
Qed.

Lemma round_pos_mono x y : 0 < x -> x <= y -> round_pos x <= round_pos y.
Proof.
  intros Hx H. assert (Hy : 0 < y) by (by eapply Qlt_le_trans).
  pose proof (binade_mono x y Hx H) as He.
  destruct (Z.eq_dec (binade x) (binade y)) as [E | E].
  - unfold round_pos. rewrite E.
    pose proof (pow2_pos (binade y - 52)) as Hp.
    apply Qmult_le_compat_r; [ | by apply Qlt_le_weak].
    rewrite <- Zle_Qle. apply rne_mono.
    apply Qmult_le_compat_r; [done | ].
    by apply Qlt_le_weak, Qinv_lt_0_compat.
  - destruct (round_pos_range x Hx) as [_ H1].
    destruct (round_pos_range y Hy) as [H2 _].
    eapply Qle_trans; [apply H1 | ]. eapply Qle_trans; [ | apply H2].
    apply pow2_le. lia.
Qed.

(** A number with a significand of at most 53 bits is a float. *)
Lemma round_pos_repr m k :
  (0 < m <= 2 ^ 53)%Z -> round_pos (inject_Z m * 2 ^ k) == inject_Z m * 2 ^ k.
Proof.
  intros [Hm1 Hm2]. set (q := inject_Z m * 2 ^ k).
  assert (Hq : 0 < q).
  { apply Qmult_lt_0_compat; [ | apply pow2_pos].
    change 0 with (inject_Z 0). by rewrite <- Zlt_Qlt. }
  destruct (binade_spec q Hq) as [H1 H2]. unfold round_pos.
  set (e := binade q) in *.
  assert (He : (e <= k + 53)%Z).
  { assert (e < k + 53 + 1)%Z; [ | lia]. apply pow2_lt_inv.
    eapply Qle_lt_trans; [apply H1 | ].
    eapply Qle_lt_trans; [ | apply pow2_lt; apply Z.lt_succ_diag_r].
    unfold q. rewrite (pow2_add k 53), (Qmult_comm (2 ^ k)), (pow2_Z 53) by done.
    apply Qmult_le_compat_r; [ | apply Qlt_le_weak, pow2_pos].
    by rewrite <- Zle_Qle. }
  assert (Es : q / 2 ^ (e - 52) == inject_Z m * 2 ^ (k - e + 52)).
  { unfold q, Qdiv. rewrite <- Qmult_assoc. f_equiv.
    rewrite <- Qpower_opp, <- pow2_add. f_equiv. lia. }
  assert (Hz : exists z, q / 2 ^ (e - 52) == inject_Z z) .
  { destruct (Z_le_gt_dec 0 (k - e + 52)) as [Hj | Hj].
    - exists (m * 2 ^ (k - e + 52))%Z.
      by rewrite Es, inject_Z_mult, pow2_Z.
    - assert (Ee : e = (k + 53)%Z) by lia.
      assert (Em : m = (2 ^ 53)%Z).
      { apply Z.le_antisymm; [done | ]. rewrite Zle_Qle.
        apply (Qmult_le_r _ _ (2 ^ k)); [apply pow2_pos | ].
        fold q. rewrite <- pow2_Z, <- pow2_add by done.
        by rewrite Z.add_comm, <- Ee. }
      exists (2 ^ 52)%Z. rewrite Es, Em, Ee.
      replace (k - (k + 53) + 52)%Z with (-1)%Z by lia. reflexivity. }
  destruct Hz as [z Ez]. rewrite (rne_comp _ _ Ez), rne_Z, <- Ez.
  field. apply pow2_nonzero.
Qed.

(** The rounding of a positive number is such a number. *)
Lemma round_pos_shape q :
  0 < q ->
  exists m k, (0 < m <= 2 ^ 53)%Z /\ round_pos q = inject_Z m * 2 ^ k.
Proof.
  intros Hq. destruct (significand_range q Hq) as [H1 H2].
  exists (rne (q / 2 ^ (binade q - 52))), (binade q - 52)%Z.
  split; [lia | done].
Qed.

Lemma round_pos_double q : 0 < q -> round_pos (2 * round_pos q) == 2 * round_pos q.
Proof.
  intros Hq. destruct (round_pos_shape q Hq) as (m & k & Hm & ->).
  assert (E : 2 * (inject_Z m * 2 ^ k) == inject_Z m * 2 ^ (k + 1))
    by (rewrite pow2_succ; ring).
  assert (Hp : 0 < 2 * (inject_Z m * 2 ^ k)).
  { rewrite E. apply Qmult_lt_0_compat; [ | apply pow2_pos].
    change 0 with (inject_Z 0). rewrite <- Zlt_Qlt. lia. }
  rewrite (round_pos_comp _ _ Hp E), round_pos_repr by done. by symmetry.
Qed.

(** *** The rounding of any rational *)

Lemma round_gt q : 0 < q -> round q = round_pos q.
Proof.
  intros H. unfold round.
  destruct (Qcompare_spec q 0); [exfalso; lra | exfalso; lra | done].
Qed.

Lemma round_lt q : q < 0 -> round q = - round_pos (- q).
Proof.
  intros H. unfold round.
  destruct (Qcompare_spec q 0); [exfalso; lra | done | exfalso; lra].
Qed.

Lemma round_eq q : q == 0 -> round q = 0.
Proof.
  intros H. unfold round.
  destruct (Qcompare_spec q 0); [done | exfalso; lra | exfalso; lra].
Qed.

Lemma round_comp : Proper (Qeq ==> Qeq) round.
Proof.
  intros x y E. destruct (Q_dec x 0) as [[H | H] | H].
  - rewrite (round_lt x H), (round_lt y) by (by rewrite <- E).
    apply Qopp_comp, round_pos_comp; [lra | by rewrite E].
  - rewrite (round_gt x H), (round_gt y) by (by rewrite <- E).
    by apply round_pos_comp.
  - rewrite (round_eq x H), (round_eq y) by (by rewrite <- E). done.
Qed.

Lemma round_sign q :
  (q < 0 -> round q < 0) /\ (q == 0 -> round q == 0) /\ (0 < q -> 0 < round q).
Proof.
  repeat split.
  - intros H. rewrite (round_lt q H).
    assert (0 < round_pos (- q)) by (apply round_pos_pos; lra). lra.
  - intros H. by rewrite (round_eq q H).
  - intros H. rewrite (round_gt q H). by apply round_pos_pos.
Qed.

Lemma round_mono x y : x <= y -> round x <= round y.
Proof.
  intros H. destruct (round_sign x) as (Hx1 & Hx2 & Hx3).
  destruct (round_sign y) as (Hy1 & Hy2 & Hy3).
  destruct (Q_dec x 0) as [[Hx | Hx] | Hx], (Q_dec y 0) as [[Hy | Hy] | Hy];
    try (exfalso; lra); try (specialize (Hx1 Hx)); try (specialize (Hx2 Hx));
    try (specialize (Hx3 Hx)); try (specialize (Hy1 Hy));
    try (specialize (Hy2 Hy)); try (specialize (Hy3 Hy)); try lra.
  - rewrite (round_lt x Hx), (round_lt y Hy).
    apply Qopp_le_compat, round_pos_mono; lra.
  - rewrite (round_gt x Hx), (round_gt y Hy). by apply round_pos_mono.
Qed.

Lemma round_double x : round (2 * round x) == 2 * round x.
Proof.
  destruct (round_sign x) as (H1 & H2 & H3).
  destruct (Q_dec x 0) as [[Hx | Hx] | Hx].
  - specialize (H1 Hx). rewrite (round_lt (2 * round x)) by lra.
    rewrite (round_lt x Hx) in *.
    assert (E : - (2 * - round_pos (- x)) == 2 * round_pos (- x)) by ring.
    assert (Hp : 0 < - (2 * - round_pos (- x))) by lra.
    rewrite (round_pos_comp _ _ Hp E).
    rewrite round_pos_double by lra. ring.
  - specialize (H3 Hx). rewrite (round_gt (2 * round x)) by lra.
    rewrite (round_gt x Hx). by apply round_pos_double.
  - rewrite (round_eq x Hx). reflexivity.
Qed.

Lemma round_0 : round 0 == 0.
Proof. vm_compute. reflexivity. Qed.

Lemma round_1 : round 1 == 1.
Proof. vm_compute. reflexivity. Qed.

End Binary64Facts.

(** Python's floats. *)
Definition binary64 : Rounding :=
  Build_Rounding Binary64.round Binary64Facts.round_comp
    Binary64Facts.round_mono Binary64Facts.round_0 Binary64Facts.round_1
    Binary64Facts.round_double.

(** ** Float operations under a rounding *)

Section FloatFacts.
Context {R : Rounding}.

Lemma of_nat_nonneg n : (0 <= Float.of_nat n)%Q.
Proof.
  unfold Float.of_nat. change 0%Q with (inject_Z 0). rewrite <- Zle_Qle. lia.
Qed.

Lemma of_nat_pos n : (0 < n)%nat -> (0 < Float.of_nat n)%Q.
Proof.
  intros H. unfold Float.of_nat. change 0%Q with (inject_Z 0).
  rewrite <- Zlt_Qlt. lia.
Qed.

Lemma of_nat_le a b : (a <= b)%nat -> (Float.of_nat a <= Float.of_nat b)%Q.
Proof. intros H. unfold Float.of_nat. rewrite <- Zle_Qle. lia. Qed.

Lemma ratio_range a b :
  (a <= b)%nat -> (0 < b)%nat ->
  (0 <= Float.of_nat a / Float.of_nat b <= 1)%Q.
Proof.
  intros Hab Hb.
  pose proof (of_nat_nonneg a). pose proof (of_nat_pos b Hb).
  pose proof (of_nat_le a b Hab). split.
  - apply Qle_shift_div_l; lra.
  - apply Qle_shift_div_r; lra.
Qed.

Lemma rnd_unit x : (0 <= x <= 1)%Q -> (0 <= rnd x <= 1)%Q.
Proof.
  intros [H0 H1]. split.
  - rewrite <- rnd_0. by apply rnd_mono.
  - rewrite <- rnd_1. by apply rnd_mono.
Qed.

Lemma truediv_pos a b :
  (0 < b)%nat ->
  Float.truediv a b = Ok (rnd (Float.of_nat a / Float.of_nat b)).
Proof. intros H. destruct b; [lia | done]. Qed.

Lemma gt0_spec x : Float.gt0 x = true <-> (0 < x)%Q.
Proof.
  unfold Float.gt0. rewrite negb_true_iff, <- not_true_iff_false, Qle_bool_iff.
  split; [apply Qnot_le_lt | apply Qlt_not_le].
Qed.

Lemma gt0_false x : Float.gt0 x = false <-> (x <= 0)%Q.
Proof.
  unfold Float.gt0. by rewrite negb_false_iff, Qle_bool_iff.
Qed.

Lemma div_nonzero x y :
  ~ (y == 0)%Q -> Float.div x y = Ok (rnd (x / y)).
Proof.
  intros H. unfold Float.div.
  destruct (Qeq_bool y 0) eqn:E; [ | done].
  by apply Qeq_bool_iff in E.
Qed.

Lemma div_zero x y : (y == 0)%Q -> Float.div x y = Raise ZeroDivisionError.
Proof.
  intros H. unfold Float.div. apply Qeq_bool_iff in H. by rewrite H.
Qed.

Lemma rnd_2 : (rnd 2 == 2)%Q.
Proof.
  pose proof (rnd_double 1) as H. rewrite rnd_1 in H. exact H.
Qed.

(** [2 * p] is exact on a float [p], so the numerator [2 * p * r] of the
    harmonic mean never exceeds the denominator [p + r]. *)
Lemma harmonic_terms x y :
  (0 <= rnd x <= 1)%Q -> (0 <= rnd y <= 1)%Q ->
  (0 <= Float.mul (Float.mul 2 (rnd x)) (rnd y)
     <= Float.add (rnd x) (rnd y))%Q.
Proof.
  intros [Hp0 Hp1] [Hr0 Hr1]. unfold Float.mul, Float.add.
  rewrite rnd_double. split.
  - rewrite <- rnd_0. apply rnd_mono. nra.
  - apply rnd_mono. nra.
Qed.

End FloatFacts.

(** ** [answer_f1] *)

Section ScorerFacts.
Context {U : Unicode} {R : Rounding}.

Lemma gset_size_pos (X : gset str) : X ≠ ∅ -> (0 < size X)%nat.
Proof.
  intros H. destruct (size X) eqn:E; [ | lia].
  by apply size_empty_iff, leibniz_equiv in E.
Qed.

(** The last branch of [answer_f1], reached when both token sets are non
    empty: no division raises. *)
Lemma answer_f1_overlap pred gold :
  let P := normalize_answer pred in
  let G := normalize_answer (Py.join (u " ") gold) in
  P ≠ ∅ -> G ≠ ∅ ->
  exists v,
    answer_f1 pred gold = Ok v /\
    f_measure (rnd (Float.of_nat (size (P ∩ G)) / Float.of_nat (size P)))
              (rnd (Float.of_nat (size (P ∩ G)) / Float.of_nat (size G))) v /\
    (0 <= v <= 1)%Q.
Proof.
  intros P G HP HG. unfold answer_f1. fold P G.
  destruct (decide (G = ∅)) as [ | _]; [done | ].
  destruct (decide (P = ∅)) as [ | _]; [done | ].
  rewrite (truediv_pos _ _ (gset_size_pos _ HP)).
  rewrite (truediv_pos _ _ (gset_size_pos _ HG)). cbn [mbind result_bind].
  set (p := rnd (Float.of_nat (size (P ∩ G)) / Float.of_nat (size P))).
  set (r := rnd (Float.of_nat (size (P ∩ G)) / Float.of_nat (size G))).
  assert (Hp : (0 <= p <= 1)%Q).
  { apply rnd_unit, ratio_range; [ | by apply gset_size_pos].
    apply subseteq_size, intersection_subseteq_l. }
  assert (Hr : (0 <= r <= 1)%Q).
  { apply rnd_unit, ratio_range; [ | by apply gset_size_pos].
    apply subseteq_size, intersection_subseteq_r. }
  pose proof (harmonic_terms _ _ Hp Hr) as [Hn0 Hn1]. fold p r in Hn0, Hn1.
  destruct (Float.gt0 (Float.add p r)) eqn:Hs.
  - apply gt0_spec in Hs.
    rewrite div_nonzero by (intros E; rewrite E in Hs; by apply Qlt_irrefl in Hs).
    eexists. split; [done | ]. split.
    + split; [done | ]. intros Hle. unfold Float.add in Hs.
      exfalso. by apply (Qlt_not_le _ _ Hs).
    + apply rnd_unit. split.
      * apply Qle_shift_div_l; [done | ]. by rewrite Qmult_0_l.
      * apply Qle_shift_div_r; [done | ]. by rewrite Qmult_1_l.
  - apply gt0_false in Hs. exists 0%Q. split; [done | ]. split.
    + split; [ | done]. intros Hlt. unfold Float.add in Hs.
      exfalso. by apply (Qlt_not_le _ _ Hlt).
    + split; apply Qle_refl || discriminate.
Qed.

(** [answer_f1] never raises, and scores between 0 and 1. *)
Lemma answer_f1_returns pred gold :
  exists v, answer_f1 pred gold = Ok v /\ (0 <= v <= 1)%Q.
Proof.
  unfold answer_f1.
  destruct (decide (normalize_answer (Py.join (u " ") gold) = ∅)) as [HG | HG];
    [ | destruct (decide (normalize_answer pred = ∅)) as [HP | HP] ].
  - destruct (decide _); eexists; (split; [done | ]); split; discriminate.
  - eexists; (split; [done | ]); split; discriminate.
  - destruct (answer_f1_overlap pred gold HP HG) as (v & E & _ & Hv).
    unfold answer_f1 in E. rewrite decide_False in E by done.
    rewrite decide_False in E by done. by exists v.
Qed.

(** C1. [answer_f1] returns [1.0] when both normalized token sets are
    empty, [0.0] when exactly one of them is empty, and otherwise the
    harmonic mean [2 * precision * recall / (precision + recall)] of
    [precision = |common| / |pred_tokens|] and
    [recall = |common| / |gold_tokens|] over the intersection [common] of
    the two sets, or [0.0] when [precision + recall] is not positive; each
    float operation is rounded. *)
Theorem answer_f1_cases (pred : str) (gold : list str) :
  let pred_tokens := normalize_answer pred in
  let gold_tokens := normalize_answer (Py.join (u " ") gold) in
  let common := pred_tokens ∩ gold_tokens in
  (gold_tokens = ∅ -> pred_tokens = ∅ -> answer_f1 pred gold = Ok 1%Q) /\
  (gold_tokens = ∅ -> pred_tokens ≠ ∅ -> answer_f1 pred gold = Ok 0%Q) /\
  (pred_tokens = ∅ -> gold_tokens ≠ ∅ -> answer_f1 pred gold = Ok 0%Q) /\
  (pred_tokens ≠ ∅ -> gold_tokens ≠ ∅ ->
   exists v,
     answer_f1 pred gold = Ok v /\
     f_measure
       (rnd (Float.of_nat (size common) / Float.of_nat (size pred_tokens)))
       (rnd (Float.of_nat (size common) / Float.of_nat (size gold_tokens)))
       v).
Proof.
  intros P G C. repeat split.
  - intros HG HP. unfold answer_f1. fold P G. rewrite HG, HP. done.
  - intros HG HP. unfold answer_f1. fold P G. rewrite HG.
    rewrite decide_True by done. by rewrite decide_False.
  - intros HP HG. unfold answer_f1. fold P G.
    rewrite decide_False by done. by rewrite decide_True.
  - intros HP HG.
    destruct (answer_f1_overlap pred gold HP HG) as (v & E & Hv & _).
    by exists v.
Qed.

(** C4. For every prediction and gold sequence, [answer_f1] returns a
    score in the closed interval from 0 to 1. *)
Theorem answer_f1_range (pred : str) (gold : list str) :
  exists v, answer_f1 pred gold = Ok v /\ (0 <= v <= 1)%Q.
Proof.
  destruct (decide (normalize_answer (Py.join (u " ") gold) = ∅)) as [HG | HG];
    [ | destruct (decide (normalize_answer pred = ∅)) as [HP | HP] ].
  - unfold answer_f1. rewrite decide_True by done.
    destruct (decide _); eexists; (split; [done | ]); split; discriminate.
  - unfold answer_f1. rewrite decide_False by done.
    rewrite decide_True by done.
    eexists; (split; [done | ]); split; discriminate.
  - destruct (answer_f1_overlap pred gold HP HG) as (v & E & _ & Hv).
    by exists v.
Qed.

Lemma same_result_refl a : same_result a a.
Proof. destruct a; simpl; reflexivity. Qed.

Lemma gt0_comp x y : (x == y)%Q -> Float.gt0 x = Float.gt0 y.
Proof.
  intros E. destruct (Float.gt0 y) eqn:Hy.
  - apply gt0_spec. apply gt0_spec in Hy. by rewrite E.
  - apply gt0_false. apply gt0_false in Hy. by rewrite E.
Qed.

Lemma div_comp x x' y y' :
  (x == x')%Q -> (y == y')%Q ->
  same_result (Float.div x y) (Float.div x' y').
Proof.
  intros Ex Ey. unfold Float.div.
  destruct (Qeq_bool y 0) eqn:H, (Qeq_bool y' 0) eqn:H'; simpl.
  - done.
  - apply Qeq_bool_iff in H. rewrite Ey in H. apply Qeq_bool_iff in H.
    congruence.
  - apply Qeq_bool_iff in H'. rewrite <- Ey in H'. apply Qeq_bool_iff in H'.
    congruence.
  - by rewrite Ex, Ey.
Qed.

(** The score is symmetric in precision and recall. *)
Lemma harmonic_swap x y :
  same_result
    (if Float.gt0 (Float.add (rnd x) (rnd y))
     then Float.div (Float.mul (Float.mul 2 (rnd x)) (rnd y))
                    (Float.add (rnd x) (rnd y))
     else Ok 0%Q)
    (if Float.gt0 (Float.add (rnd y) (rnd x))
     then Float.div (Float.mul (Float.mul 2 (rnd y)) (rnd x))
                    (Float.add (rnd y) (rnd x))
     else Ok 0%Q).
Proof.
  assert (Ea : (Float.add (rnd x) (rnd y) == Float.add (rnd y) (rnd x))%Q).
  { unfold Float.add. by rewrite Qplus_comm. }
  rewrite (gt0_comp _ _ Ea). destruct (Float.gt0 _); [ | done].
  apply div_comp; [ | done]. unfold Float.mul. rewrite !rnd_double.
  apply rnd_proper. ring.
Qed.

(** Prediction and gold can change places: the tokens of the prediction
    scored against the gold answers, or the joined gold answers scored
    against the prediction as the one gold answer. *)
Lemma answer_f1_swap pred gold :
  same_result (answer_f1 pred gold)
              (answer_f1 (Py.join (u " ") gold) [pred]).
Proof.
  unfold answer_f1. cbn [Py.join].
  set (P := normalize_answer pred).
  set (G := normalize_answer (Py.join (u " ") gold)).
  destruct (decide (G = ∅)) as [HG | HG], (decide (P = ∅)) as [HP | HP];
    try done.
  rewrite (comm_L (∩) G P).
  rewrite !(truediv_pos _ _ (gset_size_pos _ HP)).
  rewrite !(truediv_pos _ _ (gset_size_pos _ HG)). cbn [mbind result_bind].
  apply harmonic_swap.
Qed.

(** X2. Token sets without a common token score [0.0]. *)
Lemma answer_f1_disjoint (pred : str) (gold : list str) :
  let P := normalize_answer pred in
  let G := normalize_answer (Py.join (u " ") gold) in
  P ≠ ∅ -> G ≠ ∅ -> P ∩ G = ∅ -> answer_f1 pred gold = Ok 0%Q.
Proof.
  intros P G HP HG HC.
  destruct (answer_f1_overlap pred gold HP HG) as (v & E & [_ H] & _).
  fold P G in H. rewrite E. f_equal. apply H. rewrite HC, size_empty.
  assert (E0 : forall n, (Float.of_nat 0 / Float.of_nat n == 0)%Q)
    by (intros n; apply Qmult_0_l).
  rewrite !E0, rnd_0, Qplus_0_l, rnd_0. apply Qle_refl.
Qed.

(** X3. Equal token sets score [1.0]. *)
Lemma answer_f1_same_tokens (pred : str) (gold : list str) :
  normalize_answer pred = normalize_answer (Py.join (u " ") gold) ->
  exists v, answer_f1 pred gold = Ok v /\ (v == 1)%Q.
Proof.
  intros HE.
  destruct (decide (normalize_answer (Py.join (u " ") gold) = ∅)) as [HG | HG].
  - exists 1%Q. split; [ | done]. unfold answer_f1. rewrite HE, HG.
    rewrite decide_True by done. by rewrite decide_True.
  - assert (HP : normalize_answer pred ≠ ∅) by (by rewrite HE).
    destruct (answer_f1_overlap pred gold HP HG) as (v & E & [H _] & _).
    exists v. split; [done | ]. rewrite <- HE, (idemp_L (∩)) in H.
    assert (E1 : (Float.of_nat (size (normalize_answer pred))
                  / Float.of_nat (size (normalize_answer pred)) == 1)%Q).
    { apply Qmult_inv_r. pose proof (of_nat_pos _ (gset_size_pos _ HP)) as Hp.
      intros E0. rewrite E0 in Hp. by apply Qlt_irrefl in Hp. }
    rewrite E1, rnd_1 in H.
    assert (E2 : (1 + 1 == 2)%Q) by reflexivity.
    assert (E3 : (2 * 1 == 2)%Q) by reflexivity.
    assert (E4 : (2 / 2 == 1)%Q) by reflexivity.
    repeat first [ rewrite E2 in H | rewrite E3 in H | rewrite E4 in H
                 | rewrite rnd_2 in H | rewrite rnd_1 in H ].
    apply H. reflexivity.
Qed.

(** X1. The score is symmetric between prediction and gold:
    [answer_f1(p, g)] equals [answer_f1(" ".join(g), [p])]. *)
Lemma answer_f1_symmetric (pred : str) (gold : list str) :
  same_result (answer_f1 pred gold)
              (answer_f1 (Py.join (u " ") gold) [pred]).
Proof. apply answer_f1_swap. Qed.

(** The score reads the gold answers only through their join. *)
Lemma answer_f1_join pred gold gold' :
  Py.join (u " ") gold = Py.join (u " ") gold' ->
  answer_f1 pred gold = answer_f1 pred gold'.
Proof. intros E. unfold answer_f1. by rewrite E. Qed.

(** C8, amended.  On the pair of the specification the score is the
    same in both directions: [answer_f1("a b", ["a"])] equals
    [answer_f1("a", ["a", "b"])], under every rounding and every Unicode
    table; precision and recall change places and the harmonic mean is
    symmetric in them. *)
Theorem answer_f1_pair_symmetric :
  same_result (answer_f1 (u "a b") [u "a"])
              (answer_f1 (u "a") [u "a"; u "b"]).
Proof.
  rewrite (answer_f1_join (u "a") [u "a"; u "b"] [u "a b"]) by done.
  apply (answer_f1_swap (u "a b") [u "a"]).
Qed.

End ScorerFacts.


(** ** [classify_error] and the question patterns *)

Lemma categories_distinct : NoDup categories.
Proof. apply (bool_decide_unpack (NoDup categories)). by vm_compute. Qed.

Lemma set_eq_lists (l1 l2 : list str) :
  list_to_set l1 =@{gset str} list_to_set l2 <-> (forall a, a ∈ l1 <-> a ∈ l2).
Proof.
  rewrite set_eq. by setoid_rewrite elem_of_list_to_set.
Qed.

Lemma set_of_nil (l : list str) : list_to_set l =@{gset str} ∅ <-> l = [].
Proof.
  split; [ | by intros ->].
  destruct l as [ | a l]; [done | ]. intros H. exfalso.
  apply (not_elem_of_empty (C:=gset str) a).
  rewrite <- H, elem_of_list_to_set. by left.
Qed.

Lemma classify_error_category (question : str)
    (golden system_pred : list str) (matched : bool) :
  classify_error question golden system_pred matched ∈ categories.
Proof.
  unfold classify_error, categories. rewrite !elem_of_cons.
  destruct matched; simpl; [ | by left].
  destruct system_pred; [by right; left | ].
  destruct (decide _); [by right; right; left | by right; right; right; left].
Qed.

(** C2. The classifier assigns exactly one of the four categories, by
    priority: [pattern_mismatch] when the question matched no pattern,
    whatever the answers; otherwise [kg_missing] when the system answered
    nothing; otherwise [correct] when system and gold answers are the same
    set of strings; otherwise [wrong_retrieval].  The four names are
    pairwise distinct. *)
Theorem classify_error_priority (question : str)
    (golden system_pred : list str) (matched : bool) :
  let c := classify_error question golden system_pred matched in
  let same_set := forall a : str, a ∈ system_pred <-> a ∈ golden in
  (matched = false -> c = u "pattern_mismatch") /\
  (matched = true -> system_pred = [] -> c = u "kg_missing") /\
  (matched = true -> system_pred ≠ [] -> same_set -> c = u "correct") /\
  (matched = true -> system_pred ≠ [] -> ~ same_set ->
   c = u "wrong_retrieval") /\
  c ∈ categories /\
  NoDup categories.
Proof.
  intros c same_set. subst c same_set.
  split; [ | split; [ | split; [ | split; [ | split ] ] ] ].
  - by intros ->.
  - by intros -> ->.
  - intros -> Hne Hs. unfold classify_error.
    destruct system_pred as [ | a l]; [done | ]. simpl.
    apply set_eq_lists in Hs. by rewrite decide_True.
  - intros -> Hne Hs. unfold classify_error.
    destruct system_pred as [ | a l]; [done | ]. simpl.
    rewrite <- set_eq_lists in Hs. by rewrite decide_False.
  - apply classify_error_category.
  - apply categories_distinct.
Qed.

Lemma classify_error_sets q1 q2 (g1 g2 s1 s2 : list str) matched :
  list_to_set s1 =@{gset str} list_to_set s2 ->
  list_to_set g1 =@{gset str} list_to_set g2 ->
  classify_error q1 g1 s1 matched = classify_error q2 g2 s2 matched.
Proof.
  intros Hs Hg. unfold classify_error. destruct matched; simpl; [ | done].
  destruct s1 as [ | a1 l1], s2 as [ | a2 l2]; try done.
  - symmetry in Hs. by apply set_of_nil in Hs.
  - by apply set_of_nil in Hs.
  - rewrite Hs, Hg. done.
Qed.

(** C10. The classification does not depend on the question: with the
    same gold answers, system answers and match flag, any two questions
    are classified alike; the result is determined by the flag and by the
    two answer sets. *)
Theorem classify_error_ignores_question (q1 q2 : str)
    (golden system_pred : list str) (matched : bool) :
  classify_error q1 golden system_pred matched
  = classify_error q2 golden system_pred matched /\
  (forall golden' system_pred' : list str,
     list_to_set system_pred' =@{gset str} list_to_set system_pred ->
     list_to_set golden' =@{gset str} list_to_set golden ->
     classify_error q2 golden' system_pred' matched
     = classify_error q1 golden system_pred matched).
Proof.
  split; [done | ]. intros g' s' Hs Hg. by apply classify_error_sets.
Qed.

Lemma yequ_searches :
  List.map (fun p => Re.search p yequ) patterns
  = [false; false; true; false; false].
Proof. by vm_compute. Qed.

(** The pattern [谁唱的(.+)] is found in the question [谁唱的夜曲], which the
    classifier then files under [correct] when the system answers the gold
    answer. *)
Lemma yequ_is_matched :
  matched yequ = true /\
  classify_error yequ [u "周杰伦"] [u "周杰伦"] (matched yequ) = u "correct".
Proof. split; by vm_compute. Qed.

(** C9, amended.  The question [谁唱的夜曲] matches the third pattern,
    [谁唱的(.+)], and no other; it is therefore never classified
    [pattern_mismatch]: it is [kg_missing] when the system answers nothing,
    [correct] when the system's answers are the gold set, and
    [wrong_retrieval] otherwise. *)
Theorem yequ_classification (golden system_pred : list str) :
  let c := classify_error yequ golden system_pred (matched yequ) in
  let same_set := forall a : str, a ∈ system_pred <-> a ∈ golden in
  List.map (fun p => Re.search p yequ) patterns
  = [false; false; true; false; false] /\
  Re.matches (Re.Cat (Re.lit (u "谁唱的")) (Re.Group (Re.Plus Re.Dot))) yequ /\
  matched yequ = true /\
  c ≠ u "pattern_mismatch" /\
  (system_pred = [] -> c = u "kg_missing") /\
  (system_pred ≠ [] -> same_set -> c = u "correct") /\
  (system_pred ≠ [] -> ~ same_set -> c = u "wrong_retrieval").
Proof.
  intros c same_set.
  assert (Hm : matched yequ = true) by (by vm_compute).
  subst c same_set. rewrite Hm. unfold classify_error. simpl negb. cbv iota.
  split; [apply yequ_searches | ]. split; [ | split; [done | ] ].
  { change yequ with (u "谁唱的" ++ ([0x591C%N] ++ [0x66F2%N])).
    constructor; [apply ReFacts.matches_lit | ].
    constructor. constructor; [by constructor | ].
    change [0x66F2%N] with ([0x66F2%N] ++ []).
    constructor; [by constructor | constructor]. }
  repeat split.
  - destruct system_pred; [by vm_compute | ].
    destruct (decide _); by vm_compute.
  - by intros ->.
  - intros Hne Hs. destruct system_pred as [ | a l]; [done | ].
    apply set_eq_lists in Hs. by rewrite decide_True.
  - intros Hne Hs. destruct system_pred as [ | a l]; [done | ].
    rewrite <- set_eq_lists in Hs. by rewrite decide_False.
Qed.

(** ** [get_relation_type] *)

Lemma starts_with_spec (p s : str) :
  Py.starts_with p s = true <-> exists post, s = p ++ post.
Proof.
  revert s. induction p as [ | a p IH]; intros s; simpl.
  - split; [by exists s | done].
  - destruct s as [ | b s]; [by split; [ | intros [? ?]] | ].
    rewrite andb_true_iff, N.eqb_eq, IH. split.
    + intros [-> [post ->]]. by exists post.
    + intros [post E]. injection E as -> ->. split; [done | by exists post].
Qed.

(** [sub in s] holds exactly when [sub] is a substring of [s]. *)
Lemma contains_spec (sub s : str) :
  Py.contains sub s = true <-> exists pre post, s = pre ++ sub ++ post.
Proof.
  induction s as [ | c s IH]; cbn [Py.contains].
  - rewrite orb_false_r, starts_with_spec. split.
    + intros [post E]. by exists [], post.
    + intros (pre & post & E). symmetry in E.
      apply app_eq_nil in E as [-> E]. by exists post.
  - rewrite orb_true_iff, starts_with_spec, IH. split.
    + intros [[post E] | (pre & post & ->)].
      * by exists [], post.
      * by exists (c :: pre), post.
    + intros (pre & post & E). destruct pre as [ | c' pre].
      * left. by exists post.
      * right. injection E as <- ->. by exists pre, post.
Qed.

(** X6. The marker [作词] comes first, then [唱] or [歌手]; a question with
    neither is in no tracked bucket. *)
Lemma get_relation_type_cases (question : str) :
  let has sub := exists pre post, question = pre ++ sub ++ post in
  (has (u "作词") -> get_relation_type question = u "作词") /\
  (~ has (u "作词") -> has (u "唱") \/ has (u "歌手") ->
   get_relation_type question = u "歌手") /\
  (~ has (u "作词") -> ~ has (u "唱") -> ~ has (u "歌手") ->
   get_relation_type question = u "其他").
Proof.
  intros has. subst has. cbv beta. unfold get_relation_type.
  rewrite <- !contains_spec.
  destruct (Py.contains (u "作词") question),
    (Py.contains (u "唱") question), (Py.contains (u "歌手") question);
    simpl; repeat split; try done; intros; try done; tauto.
Qed.

(** ** The loop of [evaluate] *)

Section LoopFacts.
Context {U : Unicode} {R : Rounding}.
Variable query_handler : str -> Response.

Lemma count_cons f tc l :
  count f (tc :: l) = ((if f tc then 1 else 0) + count f l)%nat.
Proof. unfold count. simpl. by destruct (f tc). Qed.

Lemma count_le_length f l : (count f l <= length l)%nat.
Proof. unfold count. apply List.filter_length_le. Qed.

Lemma count_and_le f g l : (count (fun tc => f tc && g tc) l <= count f l)%nat.
Proof.
  induction l as [ | tc l IH]; [done | ]. rewrite !count_cons.
  destruct (f tc), (g tc); simpl; lia.
Qed.

Lemma hit_spec (system_ans golden : list str) :
  hit system_ans golden = true <->
  system_ans ≠ [] /\ exists a, a ∈ system_ans /\ a ∈ golden.
Proof.
  unfold hit. destruct system_ans as [ | a0 l]; [by split; [ | intros [? _]] | ].
  rewrite bool_decide_eq_true. split.
  - intros H. split; [done | ].
    apply set_choose_L in H as [a Ha]. exists a.
    by rewrite elem_of_intersection, !elem_of_list_to_set in Ha.
  - intros [_ (a & H1 & H2)] E.
    apply (not_elem_of_empty (C:=gset str) a).
    rewrite <- E, elem_of_intersection, !elem_of_list_to_set. done.
Qed.

Lemma llm_correct_spec (llm_ans : str) (golden : list str) :
  llm_correct llm_ans golden = true <->
  forall g, g ∈ golden -> lower g ∈ normalize_answer llm_ans.
Proof.
  unfold llm_correct. rewrite bool_decide_eq_true, elem_of_subseteq. split.
  - intros H g Hg. apply H, elem_of_list_to_set, list_elem_of_In.
    apply List.in_map. by apply list_elem_of_In.
  - intros H x Hx.
    apply elem_of_list_to_set, list_elem_of_In, List.in_map_iff in Hx
      as (g & <- & Hg).
    by apply H, list_elem_of_In.
Qed.

Lemma covers_spec (system_ans golden : list str) :
  covers system_ans golden = true <->
  forall g, g ∈ golden -> g ∈ system_ans.
Proof.
  unfold covers. rewrite bool_decide_eq_true, elem_of_subseteq.
  by setoid_rewrite elem_of_list_to_set.
Qed.

(** One turn of the loop never raises and moves the counters as the
    tests say. *)
Lemma loop_body_run st tc :
  exists st',
    loop_body query_handler st tc = Ok st' /\
    hits_at_1 st' = ((if case_hit query_handler tc then 1 else 0) + hits_at_1 st)%nat /\
    hdr_denominator st'
    = ((if case_baseline_wrong tc then 1 else 0) + hdr_denominator st)%nat /\
    hdr_numerator st'
    = ((if case_corrected query_handler tc then 1 else 0) + hdr_numerator st)%nat /\
    error_stats st'
    = incr (classify_error (question tc) (golden_answer tc)
              (system_answer query_handler (question tc))
              (matched (question tc)))
           (error_stats st).
Proof.
  unfold loop_body.
  destruct (answer_f1_returns
              (Py.join (u ", ") (system_answer query_handler (question tc)))
              (golden_answer tc)) as (f1 & -> & _).
  eexists. split; [reflexivity | ].
  cbn [hits_at_1 hdr_numerator hdr_denominator error_stats].
  unfold case_hit, case_corrected, case_baseline_wrong.
  repeat split.
  - by destruct (hit _ _).
  - by destruct (negb _).
  - by destruct (negb _ && _).
Qed.

Lemma for_each_app {A S : Type} (body : S -> A -> result S) st l1 l2 :
  for_each body st (l1 ++ l2)
  = (st' ← for_each body st l1; for_each body st' l2).
Proof.
  revert st. induction l1 as [ | x l1 IH]; intros st; [done | ].
  simpl. destruct (body st x); [apply IH | done].
Qed.

(** The loop never raises; its counters are the numbers of cases that
    pass the tests. *)
Lemma loop_counts corpus st :
  exists st',
    for_each (loop_body query_handler) st corpus = Ok st' /\
    hits_at_1 st' = (hits_at_1 st + count (case_hit query_handler) corpus)%nat /\
    hdr_denominator st'
    = (hdr_denominator st + count case_baseline_wrong corpus)%nat /\
    hdr_numerator st'
    = (hdr_numerator st + count (case_corrected query_handler) corpus)%nat.
Proof.
  revert st. induction corpus as [ | tc l IH]; intros st.
  - exists st. unfold count. simpl. repeat split; lia.
  - destruct (loop_body_run st tc) as (st1 & E1 & Hh & Hd & Hn & _).
    destruct (IH st1) as (st' & E' & Hh' & Hd' & Hn').
    exists st'. simpl. rewrite E1. split; [exact E' | ].
    rewrite !count_cons. repeat split; lia.
Qed.

Lemma hdr_rate_spec numerator denominator :
  (denominator = 0%nat -> hdr_rate numerator denominator = Ok 0%Q) /\
  ((0 < denominator)%nat ->
   hdr_rate numerator denominator
   = Ok (rnd (rnd (Float.of_nat numerator / Float.of_nat denominator) * 100))).
Proof.
  unfold hdr_rate. split.
  - by intros ->.
  - intros H. destruct denominator; [lia | done].
Qed.

Lemma relation_report_ok stats rels :
  exists l, relation_report stats rels = Ok l.
Proof.
  induction rels as [ | rel rels [l IH]]; simpl; [by eexists | ].
  destruct (stats !! rel) as [stat | ]; [ | by exists l].
  destruct (0 <? rs_count stat)%nat eqn:E; [ | by exists l].
  apply Nat.ltb_lt, of_nat_pos in E.
  rewrite div_nonzero, IH; [by eexists | ].
  intros E0. rewrite E0 in E. by apply Qlt_irrefl in E.
Qed.

(** On a corpus with a case, [evaluate] returns the metrics; its [hdr] is
    [hdr_rate] of the two counters the loop ended with. *)
Lemma evaluate_nonempty corpus :
  corpus ≠ [] ->
  exists st s,
    for_each (loop_body query_handler) init corpus = Ok st /\
    evaluate query_handler corpus = Ok s /\
    totals s = st /\
    hdr_rate (hdr_numerator st) (hdr_denominator st) = Ok (hdr s).
Proof.
  intros Hne. unfold evaluate.
  destruct (loop_counts corpus init) as (st & E & _). exists st.
  rewrite E. cbn [mbind result_bind].
  assert (Hlen : (0 < length corpus)%nat) by (destruct corpus; simpl; [done | lia]).
  rewrite div_nonzero.
  2:{ intros E0. pose proof (of_nat_pos _ Hlen) as Hp. rewrite E0 in Hp.
      by apply Qlt_irrefl in Hp. }
  rewrite (truediv_pos _ _ Hlen).
  destruct (hdr_rate_spec (hdr_numerator st) (hdr_denominator st)) as [H0 H1].
  destruct (relation_report_ok (relation_stats st) [u "歌手"; u "作词"])
    as [l El].
  destruct (hdr_denominator st) as [ | d] eqn:Ed.
  - rewrite (H0 eq_refl), El. eexists. by repeat split.
  - rewrite H1 by lia. rewrite El. eexists. by repeat split.
Qed.

Lemma evaluate_hdr corpus s :
  evaluate query_handler corpus = Ok s ->
  for_each (loop_body query_handler) init corpus = Ok (totals s) /\
  hdr_rate (hdr_numerator (totals s)) (hdr_denominator (totals s))
  = Ok (hdr s).
Proof.
  destruct corpus as [ | tc l].
  - unfold evaluate. cbn [for_each mbind result_bind].
    by rewrite div_zero.
  - intros E.
    destruct (evaluate_nonempty (tc :: l)) as (st & s' & E1 & E2 & <- & E3);
      [done | ].
    rewrite E in E2. injection E2 as <-. done.
Qed.

Lemma sum_incr_other (l : list str) (c : str) (d : gmap str nat) :
  c ∉ l ->
  sum_list (List.map (fun k => default 0%nat (incr c d !! k)) l)
  = sum_list (List.map (fun k => default 0%nat (d !! k)) l).
Proof.
  induction l as [ | k l IH]; [done | ]. intros H.
  apply not_elem_of_cons in H as [Hk Hl]. simpl. rewrite (IH Hl).
  unfold incr at 1. by rewrite lookup_insert_ne.
Qed.

Lemma sum_incr (l : list str) (c : str) (d : gmap str nat) :
  NoDup l -> c ∈ l ->
  sum_list (List.map (fun k => default 0%nat (incr c d !! k)) l)
  = S (sum_list (List.map (fun k => default 0%nat (d !! k)) l)).
Proof.
  induction 1 as [ | k l Hk Hl IH]; [by intros ?%elem_of_nil | ].
  intros [-> | Hc]%elem_of_cons; simpl.
  - rewrite (sum_incr_other l k d Hk). unfold incr at 1.
    by rewrite lookup_insert_eq.
  - rewrite (IH Hc). unfold incr at 1.
    rewrite lookup_insert_ne by (by intros ->). lia.
Qed.

(** Every case adds one to the count of one of the four categories. *)
Lemma error_stats_run (corpus : list TestCase) st :
  exists st',
    for_each (loop_body query_handler) st corpus = Ok st' /\
    category_total (error_stats st')
    = (category_total (error_stats st) + length corpus)%nat /\
    (dom (error_stats st) ⊆ list_to_set categories ->
     dom (error_stats st') ⊆ list_to_set categories).
Proof.
  revert st. induction corpus as [ | tc l IH]; intros st.
  - exists st. simpl. split; [done | ]. split; [lia | done].
  - destruct (loop_body_run st tc) as (st1 & E1 & _ & _ & _ & He).
    destruct (IH st1) as (st' & E' & Ht & Hd).
    exists st'. simpl. rewrite E1. split; [exact E' | ].
    rewrite Ht, He. split.
    + unfold category_total.
      rewrite sum_incr; [lia | apply categories_distinct | ].
      apply classify_error_category.
    + intros H. apply Hd. rewrite He. unfold incr. rewrite dom_insert.
      apply union_subseteq. split; [ | done].
      apply singleton_subseteq_l, elem_of_list_to_set, classify_error_category.
Qed.

(** X4. The counts of the four categories add up to the size of the corpus,
    and [error_stats] has no other key. *)
Lemma error_stats_total (corpus : list TestCase) :
  exists st,
    for_each (loop_body query_handler) init corpus = Ok st /\
    category_total (error_stats st) = length corpus /\
    dom (error_stats st) ⊆ list_to_set categories.
Proof.
  destruct (error_stats_run corpus init) as (st & E & Ht & Hd).
  exists st. split; [done | ]. split; [exact Ht | ]. by apply Hd.
Qed.

(** X5. With at least one case, [evaluate] returns its metrics. *)
Lemma evaluate_returns (tc : TestCase) (rest : list TestCase) :
  exists s, evaluate query_handler (tc :: rest) = Ok s.
Proof.
  destruct (evaluate_nonempty (tc :: rest)) as (_ & s & _ & E & _); [done | ].
  by exists s.
Qed.

End LoopFacts.

(** ** The counters and the rates *)

Section Metrics.
Context {U : Unicode} {R : Rounding}.
Variable query_handler : str -> Response.

(** C3. The loop leaves in [hdr_denominator] the number of cases whose
    baseline token set does not hold every lower-cased gold answer, and in
    [hdr_numerator] the number of those cases where the raw system answers
    hold every raw gold answer.  The rate of line 120 is
    [numerator / denominator * 100], and [0.0] without an error when the
    denominator is zero; it is the [hdr] that [evaluate] reports. *)
Theorem hdr_counts (corpus : list TestCase) :
  exists st,
    for_each (loop_body query_handler) init corpus = Ok st /\
    hdr_denominator st = count case_baseline_wrong corpus /\
    hdr_numerator st = count (case_corrected query_handler) corpus /\
    (forall tc,
       case_baseline_wrong tc = true <->
       ~ (forall g, g ∈ golden_answer tc ->
                    lower g ∈ normalize_answer (llm_answer tc))) /\
    (forall tc,
       case_corrected query_handler tc = true <->
       case_baseline_wrong tc = true /\
       (forall g, g ∈ golden_answer tc ->
                  g ∈ system_answer query_handler (question tc))) /\
    (hdr_denominator st = 0%nat ->
     hdr_rate (hdr_numerator st) (hdr_denominator st) = Ok 0%Q) /\
    ((0 < hdr_denominator st)%nat ->
     hdr_rate (hdr_numerator st) (hdr_denominator st)
     = Ok (rnd (rnd (Float.of_nat (hdr_numerator st)
                     / Float.of_nat (hdr_denominator st)) * 100))) /\
    (forall s, evaluate query_handler corpus = Ok s ->
               totals s = st /\
               hdr_rate (hdr_numerator st) (hdr_denominator st) = Ok (hdr s)) /\
    (corpus ≠ [] -> exists s, evaluate query_handler corpus = Ok s).
Proof.
  destruct (loop_counts query_handler corpus init) as (st & E & _ & Hd & Hn).
  exists st. split; [done | ]. split; [done | ]. split; [done | ].
  split; [ | split; [ | split; [ | split; [ | split ] ] ] ].
  - intros tc. unfold case_baseline_wrong.
    rewrite negb_true_iff, <- not_true_iff_false. by rewrite llm_correct_spec.
  - intros tc. unfold case_corrected.
    by rewrite andb_true_iff, covers_spec.
  - apply hdr_rate_spec.
  - apply hdr_rate_spec.
  - intros s Hs. apply evaluate_hdr in Hs as [E1 E2].
    rewrite E in E1. injection E1 as E1. by rewrite E1.
  - intros Hne.
    destruct (evaluate_nonempty query_handler corpus Hne) as (_ & s & _ & Es & _).
    by exists s.
Qed.

(** C5.  On the empty corpus [evaluate] raises [ZeroDivisionError]: the
    division by [total] of line 118 has no guard, unlike the division of
    line 120. *)
Theorem evaluate_empty_corpus :
  evaluate query_handler [] = Raise ZeroDivisionError.
Proof.
  unfold evaluate. cbn [for_each mbind result_bind]. by rewrite div_zero.
Qed.

(** C6. After each turn of the loop, on any corpus, [hdr_denominator] is
    at most the number of cases read and [hdr_numerator] is at most
    [hdr_denominator]: the state [st] reached after a prefix [seen] of the
    corpus satisfies both, and the run goes on from [st]. *)
Theorem hdr_invariant (seen rest : list TestCase) :
  exists st,
    for_each (loop_body query_handler) init seen = Ok st /\
    for_each (loop_body query_handler) init (seen ++ rest)
    = for_each (loop_body query_handler) st rest /\
    (hdr_denominator st <= length seen)%nat /\
    (hdr_numerator st <= hdr_denominator st)%nat.
Proof.
  destruct (loop_counts query_handler seen init) as (st & E & _ & Hd & Hn).
  exists st. split; [done | ]. split.
  - by rewrite for_each_app, E.
  - rewrite Hd, Hn. simpl. split.
    + apply count_le_length.
    + apply count_and_le.
Qed.

(** C7. A case counts for Hits@1 exactly when the system answer sequence
    is not empty and one of its strings is, as it stands, one of the gold
    strings; [hits_at_1] is the number of such cases. *)
Theorem hits_at_1_counts (corpus : list TestCase) :
  (forall system_ans golden : list str,
     hit system_ans golden = true <->
     system_ans ≠ [] /\ exists a, a ∈ system_ans /\ a ∈ golden) /\
  (forall st tc, exists st',
     loop_body query_handler st tc = Ok st' /\
     hits_at_1 st'
     = if hit (system_answer query_handler (question tc)) (golden_answer tc)
       then S (hits_at_1 st) else hits_at_1 st) /\
  exists st,
    for_each (loop_body query_handler) init corpus = Ok st /\
    hits_at_1 st = count (case_hit query_handler) corpus.
Proof.
  split; [apply hit_spec | ]. split.
  - intros st tc.
    destruct (loop_body_run query_handler st tc) as (st' & E & Hh & _).
    exists st'. split; [done | ]. rewrite Hh. unfold case_hit.
    by destruct (hit _ _).
  - destruct (loop_counts query_handler corpus init) as (st & E & Hh & _).
    by exists st.
Qed.

End Metrics.

(** * Further properties *)

(** ** The tokens of [normalize_answer] *)

Section TokenFacts.
Context {U : Unicode}.

Lemma flush_tokens (P : char -> Prop) (cur : str) :
  Forall P cur -> Forall (fun t => t ≠ [] /\ Forall P t) (Py.flush cur).
Proof.
  intros H. destruct cur as [ | c cur]; simpl; [constructor | ].
  constructor; [ | constructor]. split.
  - intros E. apply (f_equal length) in E.
    rewrite length_app in E. simpl in E. lia.
  - apply Forall_app. split; [by apply Forall_rev; inversion H | ].
    constructor; [by inversion H | constructor].
Qed.

Lemma split_from_tokens (P : char -> Prop) (cur s : str) :
  Forall P cur ->
  Forall (fun c => isspace c = false -> P c) s ->
  Forall (fun t => t ≠ [] /\ Forall P t) (Py.split_from cur s).
Proof.
  revert cur. induction s as [ | c s IH]; intros cur Hcur Hs; simpl.
  - by apply flush_tokens.
  - inversion Hs as [ | ? ? Hc Hs']; subst.
    destruct (isspace c) eqn:E.
    + apply Forall_app. split; [by apply flush_tokens | ].
      apply IH; [constructor | done].
    + apply IH; [ | done]. constructor; [by apply Hc | done].
Qed.

Lemma sub_chars (s : str) :
  Forall (fun c => isspace c = false -> word_char c \/ c = Py.SPACE)
         (Py.sub_nonword_space s).
Proof.
  unfold Py.sub_nonword_space. apply Forall_forall. intros c Hc.
  apply list_elem_of_In, List.in_map_iff in Hc as (c0 & <- & _). intros Hsp.
  unfold Py.is_space in *. destruct (Py.is_word c0) eqn:Ew; simpl in *.
  - by left.
  - destruct (isspace c0) eqn:Es; simpl in *; [congruence | by right].
Qed.

(** A token of [normalize_answer] is not empty, holds no whitespace, and
    is made of word characters and of the spaces that [re.sub] wrote. *)
Lemma normalize_answer_tokens (text t : str) :
  t ∈ normalize_answer text ->
  t ≠ [] /\
  Forall (fun c => isspace c = false /\ (word_char c \/ c = Py.SPACE)) t.
Proof.
  unfold normalize_answer. destruct text as [ | c0 text]; [set_solver | ].
  rewrite elem_of_list_to_set. intros Ht.
  assert (H : Forall (fun t => t ≠ [] /\
               Forall (fun c => isspace c = false /\
                                (word_char c \/ c = Py.SPACE)) t)
             (Py.split (Py.sub_nonword_space (lower (c0 :: text))))).
  { apply split_from_tokens; [constructor | ].
    eapply Forall_impl; [apply sub_chars | ]. intros c Hc Hs. split; auto. }
  rewrite Forall_forall in H. by apply H.
Qed.

(** X8. Where a space is whitespace, every token of [normalize_answer]
    is a non-empty run of word characters: no whitespace, no punctuation
    and no empty token gets into a token set. *)
Lemma normalize_answer_word_tokens (text t : str) :
  isspace Py.SPACE = true ->
  t ∈ normalize_answer text ->
  t ≠ [] /\ Forall (fun c => word_char c /\ isspace c = false) t.
Proof.
  intros Hsp Ht. destruct (normalize_answer_tokens text t Ht) as [Hne Hc].
  split; [done | ]. eapply Forall_impl; [exact Hc | ].
  intros c [Hs [Hw | ->]]; [done | congruence].
Qed.

Lemma not_a_token_normalize (text s : str) :
  isspace Py.SPACE = true -> not_a_token s -> s ∉ normalize_answer text.
Proof.
  intros Hsp Hs Hin.
  destruct (normalize_answer_tokens text s Hin) as [Hne Hc].
  destruct Hs as [-> | (c & Hcs & Hbad)]; [done | ].
  rewrite Forall_forall in Hc. destruct (Hc c Hcs) as [Hs [Hw | ->]].
  - unfold word_char in Hw. destruct Hbad; congruence.
  - congruence.
Qed.

(** X9. Line 90 looks each lower-cased gold answer up, whole, among the
    tokens of the baseline answer.  A gold answer that is empty or holds
    whitespace or punctuation is no token, so the baseline counts as wrong
    whatever it says. *)
Lemma llm_correct_never (llm_ans : str) (golden : list str) (g : str) :
  isspace Py.SPACE = true ->
  g ∈ golden -> not_a_token (lower g) ->
  llm_correct llm_ans golden = false.
Proof.
  intros Hsp Hg Hbad. apply not_true_iff_false. intros H.
  rewrite llm_correct_spec in H.
  by apply (not_a_token_normalize llm_ans (lower g) Hsp Hbad), H.
Qed.

Lemma llm_correct_no_gold (llm_ans : str) : llm_correct llm_ans [] = true.
Proof. apply llm_correct_spec. by intros g ?%elem_of_nil. Qed.

End TokenFacts.

(** ** Joined answers *)

Section JoinFacts.
Context {U : Unicode}.

Lemma split_from_app_sep (cur s1 s2 : str) (c : char) :
  isspace c = true ->
  Py.split_from cur (s1 ++ c :: s2) = Py.split_from cur s1 ++ Py.split s2.
Proof.
  intros Hc. revert cur. induction s1 as [ | d s1 IH]; intros cur; simpl.
  - by rewrite Hc.
  - destruct (isspace d); [ | apply IH]. by rewrite IH, app_assoc.
Qed.

Lemma split_app_sep (s1 s2 : str) (c : char) :
  isspace c = true -> Py.split (s1 ++ c :: s2) = Py.split s1 ++ Py.split s2.
Proof. apply split_from_app_sep. Qed.

Lemma split_cons_sep (s : str) (c : char) :
  isspace c = true -> Py.split (c :: s) = Py.split s.
Proof. intros Hc. apply (split_app_sep [] s c Hc). Qed.

Lemma lower_nil : plain_separators -> lower [] = [].
Proof.
  intros (Happ & _). specialize (Happ [] []). simpl in Happ.
  apply (f_equal length) in Happ. rewrite length_app in Happ.
  destruct (lower []); [done | simpl in Happ; lia].
Qed.

Lemma normalize_answer_tokens_of (text : str) :
  plain_separators -> normalize_answer text = list_to_set (tokens_of text).
Proof.
  intros H. destruct text; [ | done]. unfold tokens_of.
  by rewrite (lower_nil H).
Qed.

Lemma sub_comma_space :
  plain_separators ->
  exists c, isspace c = true /\
            Py.sub_nonword_space [COMMA; Py.SPACE] = [c; Py.SPACE].
Proof.
  intros (_ & _ & _ & Hsp & Hcm). unfold Py.sub_nonword_space. simpl.
  assert (Hw : Py.is_word COMMA = false) by (unfold Py.is_word; by rewrite Hcm).
  rewrite Hw. unfold Py.is_space. rewrite Hsp, orb_true_r. simpl.
  destruct (isspace COMMA) eqn:E; [by exists COMMA | by exists Py.SPACE].
Qed.

Lemma sub_space :
  plain_separators -> Py.sub_nonword_space [Py.SPACE] = [Py.SPACE].
Proof.
  intros (_ & _ & _ & Hsp & _). unfold Py.sub_nonword_space. simpl.
  unfold Py.is_space. by rewrite Hsp, orb_true_r.
Qed.

Lemma sub_app (a b : str) :
  Py.sub_nonword_space (a ++ b)
  = Py.sub_nonword_space a ++ Py.sub_nonword_space b.
Proof. apply map_app. Qed.

(** Joined with a separator, two texts keep their tokens. *)
Lemma tokens_of_sep (sep a b : str) :
  plain_separators -> sep = u " " \/ sep = u ", " ->
  tokens_of (a ++ sep ++ b) = tokens_of a ++ tokens_of b.
Proof.
  intros H Hsep. pose proof H as (Happ & Hls & Hlc & Hsp & Hcm).
  unfold tokens_of. destruct Hsep as [-> | ->].
  - assert (El : lower (a ++ u " " ++ b) = lower a ++ [Py.SPACE] ++ lower b).
    { change (u " ") with [Py.SPACE]. by rewrite !Happ, Hls. }
    rewrite El, !sub_app, (sub_space H). by apply split_app_sep.
  - assert (El : lower (a ++ u ", " ++ b)
                 = lower a ++ [COMMA; Py.SPACE] ++ lower b).
    { change (u ", ") with ([COMMA] ++ [Py.SPACE]).
      by rewrite !Happ, Hls, Hlc. }
    rewrite El, !sub_app. destruct (sub_comma_space H) as (c & Hc & ->).
    simpl. rewrite (split_app_sep _ _ c Hc). by rewrite (split_cons_sep _ _ Hsp).
Qed.

(** The tokens of joined answers are the tokens of the answers. *)
Lemma normalize_answer_join (sep : str) (l : list str) :
  plain_separators -> sep = u " " \/ sep = u ", " ->
  normalize_answer (Py.join sep l) = ⋃ (normalize_answer <$> l).
Proof.
  intros H Hsep. induction l as [ | x l IH]; [done | ].
  destruct l as [ | y l].
  - simpl. by rewrite (right_id_L ∅ (∪)).
  - change (Py.join sep (x :: y :: l)) with (x ++ sep ++ Py.join sep (y :: l)).
    rewrite fmap_cons, union_list_cons, <- IH.
    rewrite !(normalize_answer_tokens_of _ H), (tokens_of_sep _ _ _ H Hsep).
    by rewrite list_to_set_app_L.
Qed.

Lemma union_list_same (l1 l2 : list str) :
  list_to_set l1 =@{gset str} list_to_set l2 ->
  ⋃ (normalize_answer <$> l1) = ⋃ (normalize_answer <$> l2).
Proof.
  intros E. apply set_eq. intros t. rewrite !elem_of_union_list.
  rewrite set_eq in E. setoid_rewrite elem_of_list_to_set in E.
  split; intros (X & HX & Ht); apply list_elem_of_fmap in HX as (a & -> & Ha);
    exists (normalize_answer a); (split; [ | done]);
    apply list_elem_of_fmap; exists a; (split; [done | ]); by apply E.
Qed.

End JoinFacts.

Section ScoreFacts.
Context {U : Unicode} {R : Rounding}.

(** Equal token sets score [1.0]: the form the properties of the loop
    use. *)
Lemma answer_f1_full (pred : str) (gold : list str) :
  normalize_answer pred = normalize_answer (Py.join (u " ") gold) ->
  exists v, answer_f1 pred gold = Ok v /\ (v == 1)%Q.
Proof.
  intros HE.
  destruct (decide (normalize_answer (Py.join (u " ") gold) = ∅)) as [HG | HG].
  - exists 1%Q. split; [ | done]. unfold answer_f1. rewrite HE, HG.
    rewrite decide_True by done. by rewrite decide_True.
  - assert (HP : normalize_answer pred ≠ ∅) by (by rewrite HE).
    destruct (answer_f1_overlap pred gold HP HG) as (v & E & [H _] & _).
    exists v. split; [done | ]. rewrite <- HE, (idemp_L (∩)) in H.
    assert (E1 : (Float.of_nat (size (normalize_answer pred))
                  / Float.of_nat (size (normalize_answer pred)) == 1)%Q).
    { apply Qmult_inv_r. pose proof (of_nat_pos _ (gset_size_pos _ HP)) as Hp.
      intros E0. rewrite E0 in Hp. by apply Qlt_irrefl in Hp. }
    rewrite E1, rnd_1 in H.
    assert (E2 : (1 + 1 == 2)%Q) by reflexivity.
    assert (E3 : (2 * 1 == 2)%Q) by reflexivity.
    assert (E4 : (2 / 2 == 1)%Q) by reflexivity.
    repeat first [ rewrite E2 in H | rewrite E3 in H | rewrite E4 in H
                 | rewrite rnd_2 in H | rewrite rnd_1 in H ].
    apply H. reflexivity.
Qed.


End ScoreFacts.

(** ** The counters of the loop *)

Section LoopMore.
Context {U : Unicode} {R : Rounding}.
Variable query_handler : str -> Response.

Lemma loop_body_fields st tc :
  exists st' f1,
    loop_body query_handler st tc = Ok st' /\
    (0 <= f1 <= 1)%Q /\
    f1_total st' = Float.add (f1_total st) f1 /\
    error_stats st' = incr (case_category query_handler tc) (error_stats st) /\
    relation_stats st'
    = alter (fun s => {| rs_p := rs_p s; rs_r := rs_r s;
                         rs_f1 := Float.add (rs_f1 s) f1;
                         rs_count := S (rs_count s) |})
            (get_relation_type (question tc)) (relation_stats st).
Proof.
  unfold loop_body.
  destruct (answer_f1_returns
              (Py.join (u ", ") (system_answer query_handler (question tc)))
              (golden_answer tc)) as (f1 & -> & Hf).
  eexists _, f1. split; [reflexivity | ]. split; [exact Hf | ].
  by repeat split.
Qed.

Lemma incr_lookup (k c : str) (d : gmap str nat) :
  incr k d !! c
  = if decide (k = c) then Some (S (default 0%nat (d !! c))) else d !! c.
Proof.
  unfold incr. rewrite lookup_insert. by destruct (decide (k = c)) as [-> | ].
Qed.

(** [error_stats] counts the cases of each category; a category gets its
    key with its first case. *)
Lemma error_stats_counts_from (corpus : list TestCase) st :
  exists st',
    for_each (loop_body query_handler) st corpus = Ok st' /\
    forall c,
      default 0%nat (error_stats st' !! c)
      = (default 0%nat (error_stats st !! c)
         + count (in_category query_handler c) corpus)%nat /\
      (error_stats st' !! c = None <->
       error_stats st !! c = None /\
       count (in_category query_handler c) corpus = 0%nat).
Proof.
  revert st. induction corpus as [ | tc l IH]; intros st.
  - exists st. split; [done | ]. intros c. unfold count. simpl.
    split; [lia | tauto].
  - destruct (loop_body_fields st tc) as (st1 & f1 & E1 & _ & _ & He & _).
    destruct (IH st1) as (st' & E' & H).
    exists st'. simpl. rewrite E1. split; [exact E' | ]. intros c.
    destruct (H c) as [Hn Hk]. rewrite Hn, Hk, He, incr_lookup, count_cons.
    assert (Hin : in_category query_handler c tc
                  = bool_decide (case_category query_handler tc = c)) by done.
    rewrite Hin.
    destruct (decide (case_category query_handler tc = c)) as [Ec | Hne].
    + rewrite bool_decide_true by done. simpl. split; [lia | ].
      split; [by intros [? _] | intros [_ ?]; lia].
    + rewrite bool_decide_false by done. simpl. done.
Qed.

Lemma count_impl (f g : TestCase -> bool) l :
  (forall tc, f tc = true -> g tc = true) -> (count f l <= count g l)%nat.
Proof.
  intros H. induction l as [ | tc l IH]; [done | ]. rewrite !count_cons.
  specialize (H tc).
  destruct (f tc), (g tc); simpl; first [lia | by specialize (H eq_refl)].
Qed.

Lemma count_disjoint (f g : TestCase -> bool) l :
  (forall tc, f tc = true -> g tc = false) ->
  (count f l + count g l <= length l)%nat.
Proof.
  intros H. induction l as [ | tc l IH]; [done | ]. rewrite !count_cons.
  specialize (H tc).
  destruct (f tc), (g tc); simpl; first [lia | by specialize (H eq_refl)].
Qed.

Lemma classify_error_correct q (g s : list str) m :
  classify_error q g s m = u "correct" ->
  m = true /\ s ≠ [] /\ list_to_set s =@{gset str} list_to_set g.
Proof.
  unfold classify_error. destruct m; simpl; [ | by vm_compute].
  destruct s as [ | a s]; [by vm_compute | ].
  destruct (decide _) as [E | _]; [done | by vm_compute].
Qed.

Lemma classify_error_kg_missing q (g s : list str) m :
  classify_error q g s m = u "kg_missing" -> m = true /\ s = [].
Proof.
  unfold classify_error. destruct m; simpl; [ | by vm_compute].
  destruct s as [ | a s]; [done | ].
  destruct (decide _) as [E | _]; by vm_compute.
Qed.

Lemma baseline_wrong_gold tc : case_baseline_wrong tc = true -> golden_answer tc ≠ [].
Proof.
  unfold case_baseline_wrong. intros H E. rewrite E, llm_correct_no_gold in H.
  done.
Qed.

(** A corrected case is a hit. *)
Lemma case_corrected_hit tc :
  case_corrected query_handler tc = true -> case_hit query_handler tc = true.
Proof.
  unfold case_corrected, case_hit. intros [Hw Hc]%andb_true_iff.
  apply baseline_wrong_gold in Hw. rewrite covers_spec in Hc.
  destruct (golden_answer tc) as [ | g l] eqn:Eg; [done | ].
  assert (Hg : g ∈ system_answer query_handler (question tc))
    by (apply Hc; by left).
  apply hit_spec. split; [by intros E; rewrite E in Hg; apply elem_of_nil in Hg | ].
  exists g. split; [done | by left].
Qed.

(** A case classified [correct] is a hit. *)
Lemma case_correct_hit tc :
  in_category query_handler (u "correct") tc = true ->
  case_hit query_handler tc = true.
Proof.
  unfold in_category, case_category, case_hit. intros H%bool_decide_eq_true.
  apply classify_error_correct in H as (_ & Hne & Hs).
  destruct (system_answer query_handler (question tc)) as [ | a l] eqn:E; [done | ].
  apply hit_spec. split; [done | ]. exists a. split; [by left | ].
  apply (proj1 (set_eq_lists _ _) Hs). by left.
Qed.

(** A case classified [kg_missing] is no hit. *)
Lemma case_kg_missing_no_hit tc :
  in_category query_handler (u "kg_missing") tc = true ->
  case_hit query_handler tc = false.
Proof.
  unfold in_category, case_category, case_hit. intros H%bool_decide_eq_true.
  apply classify_error_kg_missing in H as (_ & ->). done.
Qed.

(** X16. The counters agree with each other: a corrected case is a hit,
    a case classified [correct] is a hit, and a case classified
    [kg_missing] is none. *)
Lemma counters_consistent (corpus : list TestCase) :
  exists st,
    for_each (loop_body query_handler) init corpus = Ok st /\
    (hdr_numerator st <= hits_at_1 st)%nat /\
    (default 0%nat (error_stats st !! u "correct") <= hits_at_1 st)%nat /\
    (default 0%nat (error_stats st !! u "kg_missing") + hits_at_1 st
     <= length corpus)%nat.
Proof.
  destruct (loop_counts query_handler corpus init) as (st & E & Hh & _ & Hn).
  destruct (error_stats_counts_from corpus init) as (st' & E' & He).
  rewrite E in E'. injection E' as <-.
  exists st. split; [done | ]. rewrite Hh, Hn.
  rewrite (proj1 (He (u "correct"))), (proj1 (He (u "kg_missing"))).
  simpl. repeat split.
  - apply count_impl, case_corrected_hit.
  - apply count_impl, case_correct_hit.
  - apply count_disjoint, case_kg_missing_no_hit.
Qed.

(** [error_stats] read key by key. *)
Lemma error_stats_lookup (corpus : list TestCase) :
  exists st,
    for_each (loop_body query_handler) init corpus = Ok st /\
    forall c n,
      error_stats st !! c = Some n <->
      n = count (in_category query_handler c) corpus /\ (0 < n)%nat.
Proof.
  destruct (error_stats_counts_from corpus init) as (st & E & H).
  exists st. split; [done | ]. intros c n. destruct (H c) as [Hn Hk].
  simpl in Hn, Hk. rewrite lookup_empty in Hk.
  destruct (error_stats st !! c) as [m | ] eqn:Em; simpl in Hn.
  - split.
    + intros [= <-]. split; [done | ].
      destruct (count (in_category query_handler c) corpus) eqn:Ec; [ | lia].
      by destruct Hk as [_ Hk]; specialize (Hk (conj eq_refl eq_refl)).
    + by intros [-> _]; rewrite Hn.
  - split; [done | ]. intros [-> Hpos]. lia.
Qed.

(** X15. After the loop [error_stats] holds, under each category, the
    number of cases the classifier filed there; a category without a case
    has no key, and no other key is ever written. *)
Lemma error_stats_counts (corpus : list TestCase) :
  exists st,
    for_each (loop_body query_handler) init corpus = Ok st /\
    (forall c n,
       error_stats st !! c = Some n <->
       n = count (in_category query_handler c) corpus /\ (0 < n)%nat) /\
    (forall c, c ∉ categories -> error_stats st !! c = None).
Proof.
  destruct (error_stats_lookup corpus) as (st & E & H).
  exists st. split; [done | ]. split; [done | ]. intros c Hc.
  destruct (error_stats st !! c) as [n | ] eqn:En; [ | done].
  apply H in En as [-> Hpos]. exfalso.
  assert (Hz : count (in_category query_handler c) corpus = 0%nat); [ | lia].
  clear Hpos H E. induction corpus as [ | tc l IH]; [done | ].
  rewrite count_cons, IH. unfold in_category. rewrite bool_decide_false; [done | ].
  intros <-. apply Hc, classify_error_category.
Qed.

End LoopMore.

(** ** The relation buckets and the percentages *)

Section RelationFacts.
Context {U : Unicode} {R : Rounding}.
Variable query_handler : str -> Response.

(** The loop never adds or drops a bucket and never writes the fields
    [p] and [r]; the count of a bucket grows with the cases of its tag. *)
Lemma relation_stats_from (corpus : list TestCase) st :
  exists st',
    for_each (loop_body query_handler) st corpus = Ok st' /\
    forall rel,
      match relation_stats st !! rel with
      | None => relation_stats st' !! rel = None
      | Some s =>
          exists s',
            relation_stats st' !! rel = Some s' /\
            rs_p s' = rs_p s /\ rs_r s' = rs_r s /\
            rs_count s' = (rs_count s + count (has_relation rel) corpus)%nat
      end.
Proof.
  revert st. induction corpus as [ | tc l IH]; intros st.
  - exists st. split; [done | ]. intros rel.
    destruct (relation_stats st !! rel) as [s | ]; [ | done].
    exists s. unfold count. simpl. repeat split; lia.
  - destruct (loop_body_fields query_handler st tc)
      as (st1 & f1 & E1 & _ & _ & _ & Hr).
    destruct (IH st1) as (st' & E' & H).
    exists st'. simpl. rewrite E1. split; [exact E' | ]. intros rel.
    specialize (H rel). rewrite Hr, lookup_alter in H. rewrite count_cons.
    assert (Hin : has_relation rel tc
                  = bool_decide (get_relation_type (question tc) = rel)) by done.
    rewrite Hin. clear Hin.
    destruct (decide (get_relation_type (question tc) = rel)) as [<- | E].
    + rewrite bool_decide_true by done.
      destruct (relation_stats st !! get_relation_type (question tc))
        as [s | ]; simpl in H; [ | done].
      destruct H as (s' & Hs' & Hp & Hrr & Hc). exists s'.
      simpl in *. repeat split; try done. lia.
    + rewrite bool_decide_false by done.
      destruct (relation_stats st !! rel) as [s | ]; simpl in H; done.
Qed.

(** [relation_stats] read key by key. *)
Lemma relation_stats_lookup (corpus : list TestCase) :
  exists st,
    for_each (loop_body query_handler) init corpus = Ok st /\
    forall rel,
      (rel ≠ u "歌手" -> rel ≠ u "作词" -> relation_stats st !! rel = None) /\
      (rel = u "歌手" \/ rel = u "作词" ->
       exists s,
         relation_stats st !! rel = Some s /\
         rs_p s = 0%Q /\ rs_r s = 0%Q /\
         rs_count s = count (has_relation rel) corpus).
Proof.
  destruct (relation_stats_from corpus init) as (st & E & H).
  exists st. split; [done | ]. intros rel. specialize (H rel).
  assert (Hne : u "歌手" ≠ u "作词") by (by vm_compute).
  split.
  - intros H1 H2. unfold init in H. cbn [relation_stats] in H.
    rewrite lookup_insert_ne, lookup_singleton_ne in H by done. done.
  - intros [-> | ->]; unfold init in H; cbn [relation_stats] in H.
    + rewrite lookup_insert_eq in H. done.
    + rewrite lookup_insert_ne, lookup_singleton_eq in H by done. done.
Qed.

(** The report lists, in the order asked, the buckets with a sample. *)
Lemma relation_report_keys (stats : gmap str RelStat) (rels : list str) :
  exists l,
    relation_report stats rels = Ok l /\
    l.*1 = List.filter
             (fun rel => match stats !! rel with
                         | Some stat => (0 <? rs_count stat)%nat
                         | None => false
                         end) rels.
Proof.
  induction rels as [ | rel rels (l & IH & Hl)]; simpl; [by exists [] | ].
  destruct (stats !! rel) as [stat | ]; [ | by exists l].
  destruct (0 <? rs_count stat)%nat eqn:E; [ | by exists l].
  apply Nat.ltb_lt, of_nat_pos in E.
  rewrite div_nonzero, IH.
  - eexists. split; [reflexivity | ]. by rewrite fmap_cons, Hl.
  - intros E0. rewrite E0 in E. by apply Qlt_irrefl in E.
Qed.

(** What [evaluate] returns, read back from its result. *)
Lemma evaluate_inv (corpus : list TestCase) s :
  evaluate query_handler corpus = Ok s ->
  corpus ≠ [] /\
  for_each (loop_body query_handler) init corpus = Ok (totals s) /\
  avg_f1 s
  = Float.mul (rnd (f1_total (totals s) / Float.of_nat (length corpus))) 100 /\
  hits_at_1_rate s
  = Float.mul (rnd (Float.of_nat (hits_at_1 (totals s))
                    / Float.of_nat (length corpus))) 100 /\
  hdr_rate (hdr_numerator (totals s)) (hdr_denominator (totals s))
  = Ok (hdr s) /\
  relation_report (relation_stats (totals s)) [u "歌手"; u "作词"]
  = Ok (relation_avg_f1 s).
Proof.
  destruct corpus as [ | tc l].
  { unfold evaluate. cbn [for_each mbind result_bind]. by rewrite div_zero. }
  unfold evaluate.
  destruct (for_each _ _ _) as [st | ]; cbn [mbind result_bind]; [ | done].
  rewrite div_nonzero.
  2:{ intros E0. assert (Hp : (0 < Float.of_nat (length (tc :: l)))%Q)
        by (apply of_nat_pos; simpl; lia).
      rewrite E0 in Hp. by apply Qlt_irrefl in Hp. }
  rewrite truediv_pos by (simpl; lia).
  destruct (hdr_rate _ _) as [h | ] eqn:Eh; [ | done].
  destruct (relation_report _ _) as [rep | ] eqn:Er; [ | done].
  intros [= <-]. cbn [totals avg_f1 hits_at_1_rate hdr relation_avg_f1].
  by repeat split.
Qed.

Lemma relation_report_of (corpus : list TestCase) s :
  evaluate query_handler corpus = Ok s ->
  (relation_avg_f1 s).*1
  = List.filter (fun rel => (0 <? count (has_relation rel) corpus)%nat)
                [u "歌手"; u "作词"].
Proof.
  intros (_ & El & _ & _ & _ & Er)%evaluate_inv.
  destruct (relation_report_keys (relation_stats (totals s)) [u "歌手"; u "作词"])
    as (l & El' & Hl). rewrite Er in El'. injection El' as <-. rewrite Hl.
  destruct (relation_stats_lookup corpus) as (st & E & H).
  rewrite El in E. injection E as <-.
  destruct (proj2 (H (u "歌手")) (or_introl eq_refl)) as (s1 & E1 & _ & _ & C1).
  destruct (proj2 (H (u "作词")) (or_intror eq_refl)) as (s2 & E2 & _ & _ & C2).
  cbn [List.filter]. by rewrite E1, E2, C1, C2.
Qed.

(** X18. The loop keeps the two buckets [歌手] and [作词] and adds none:
    a question tagged [其他] is counted nowhere.  The count of a bucket is
    the number of cases with its tag, and the fields [p] and [r] are never
    written: they are 0 at the end. *)
Lemma relation_stats_buckets (corpus : list TestCase) :
  exists st,
    for_each (loop_body query_handler) init corpus = Ok st /\
    dom (relation_stats st) = {[ u "歌手"; u "作词" ]} /\
    forall rel s,
      relation_stats st !! rel = Some s ->
      rs_p s = 0%Q /\ rs_r s = 0%Q /\
      rs_count s = count (has_relation rel) corpus.
Proof.
  destruct (relation_stats_lookup corpus) as (st & E & H).
  exists st. split; [done | ]. split.
  - apply set_eq. intros rel. rewrite elem_of_dom, elem_of_union, !elem_of_singleton.
    destruct (H rel) as [Hn Hs]. split.
    + intros [s Es]. destruct (decide (rel = u "歌手")) as [ | N1]; [by left | ].
      destruct (decide (rel = u "作词")) as [ | N2]; [by right | ].
      rewrite (Hn N1 N2) in Es. done.
    + intros Hr. destruct (Hs Hr) as (s & Es & _). by exists s.
  - intros rel s Es. destruct (H rel) as [Hn Hs].
    destruct (decide (rel = u "歌手")) as [E1 | N1].
    { destruct (Hs (or_introl E1)) as (s' & Es' & Hf).
      rewrite Es in Es'. by injection Es' as <-. }
    destruct (decide (rel = u "作词")) as [E2 | N2].
    { destruct (Hs (or_intror E2)) as (s' & Es' & Hf).
      rewrite Es in Es'. by injection Es' as <-. }
    rewrite (Hn N1 N2) in Es. done.
Qed.

(** X19. With at least one case, the report by relation lists exactly
    the buckets that got a case, [歌手] before [作词]: a bucket without a
    sample is left out, not shown with an average of 0. *)
Lemma relation_report_buckets (tc : TestCase) (rest : list TestCase) :
  exists s,
    evaluate query_handler (tc :: rest) = Ok s /\
    (relation_avg_f1 s).*1
    = List.filter
        (fun rel => (0 <? count (has_relation rel) (tc :: rest))%nat)
        [u "歌手"; u "作词"].
Proof.
  destruct (evaluate_nonempty query_handler (tc :: rest))
    as (_ & s & _ & E & _); [done | ].
  exists s. split; [done | ]. by apply relation_report_of.
Qed.

End RelationFacts.

Section Percentages.
Context {U : Unicode} {R : Rounding}.
Variable query_handler : str -> Response.

Lemma of_nat_succ k : (Float.of_nat (S k) == Float.of_nat k + 1)%Q.
Proof.
  unfold Float.of_nat. rewrite Nat2Z.inj_succ, <- Z.add_1_r, inject_Z_plus.
  reflexivity.
Qed.

(** The sum of the scores is at most the number of cases, as long as
    [rnd] keeps the integers up to it. *)
Lemma f1_total_bound (corpus : list TestCase) (n k : nat) st :
  keeps_nat n -> (k + length corpus <= n)%nat ->
  (0 <= f1_total st <= Float.of_nat k)%Q ->
  exists st',
    for_each (loop_body query_handler) st corpus = Ok st' /\
    (0 <= f1_total st' <= Float.of_nat (k + length corpus))%Q.
Proof.
  intros Hn. revert k st. induction corpus as [ | tc l IH]; intros k st Hk Hst.
  - exists st. split; [done | ]. simpl. by rewrite Nat.add_0_r.
  - destruct (loop_body_fields query_handler st tc)
      as (st1 & f1 & E1 & Hf & Ht & _).
    destruct (IH (S k) st1) as (st' & E' & H').
    + simpl in Hk. lia.
    + rewrite Ht. unfold Float.add. split.
      * rewrite <- rnd_0. apply rnd_mono. lra.
      * rewrite <- (Hn (S k)) by (simpl in Hk; lia).
        apply rnd_mono. rewrite of_nat_succ. lra.
    + exists st'. simpl. rewrite E1. split; [exact E' | ].
      by replace (k + S (length l))%nat with (S k + length l)%nat by lia.
Qed.

Lemma percent_range (x : Q) :
  (rnd 100 == 100)%Q -> (0 <= x <= 1)%Q -> (0 <= Float.mul x 100 <= 100)%Q.
Proof.
  intros H100 [H0 H1]. unfold Float.mul. split.
  - apply Qle_trans with (rnd 0); [by rewrite rnd_0 | apply rnd_mono; lra].
  - apply Qle_trans with (rnd 100); [apply rnd_mono; lra | by rewrite H100].
Qed.

Lemma percentages_of (corpus : list TestCase) s :
  keeps_nat (Nat.max 100 (length corpus)) ->
  evaluate query_handler corpus = Ok s ->
  (0 <= avg_f1 s <= 100)%Q /\
  (0 <= hits_at_1_rate s <= 100)%Q /\
  (0 <= hdr s <= 100)%Q.
Proof.
  intros Hn (Hne & El & -> & -> & Eh & _)%evaluate_inv.
  assert (H100 : (rnd 100 == 100)%Q) by (apply (Hn 100%nat); lia).
  assert (Hlen : (0 < length corpus)%nat) by (destruct corpus; simpl; [done | lia]).
  pose proof (of_nat_pos _ Hlen) as Hpos.
  destruct (loop_counts query_handler corpus init) as (st & E & Hh & Hd & Hnum).
  rewrite El in E. injection E as <-. simpl in Hh, Hd, Hnum.
  split; [ | split].
  - apply percent_range; [done | ]. apply rnd_unit.
    destruct (f1_total_bound corpus (Nat.max 100 (length corpus)) 0 init Hn)
      as (st' & E' & [H0 H1]); [lia | simpl; split; apply Qle_refl | ].
    rewrite El in E'. injection E' as <-. simpl in H1. split.
    + by apply Qle_shift_div_l; [ | rewrite Qmult_0_l].
    + by apply Qle_shift_div_r; [ | rewrite Qmult_1_l].
  - apply percent_range; [done | ]. apply rnd_unit, ratio_range; [ | done].
    rewrite Hh. apply count_le_length.
  - destruct (hdr_rate_spec (hdr_numerator (totals s))
                (hdr_denominator (totals s))) as [Hz Hp].
    destruct (hdr_denominator (totals s)) as [ | d] eqn:Ed.
    + rewrite (Hz eq_refl) in Eh. injection Eh as <-. split; discriminate.
    + rewrite Hp in Eh by lia. injection Eh as <-.
      apply (percent_range _ H100), rnd_unit, ratio_range; [ | lia].
      rewrite Hnum, Hd. apply count_and_le.
Qed.

(** In each bucket the sum of the scores is at most the count, as long as
    [rnd] keeps the integers up to it. *)
Lemma relation_f1_bound (corpus : list TestCase) (n k : nat) st :
  keeps_nat n -> (k + length corpus <= n)%nat ->
  (forall rel s,
     relation_stats st !! rel = Some s ->
     (0 <= rs_f1 s <= Float.of_nat (rs_count s))%Q /\ (rs_count s <= k)%nat) ->
  exists st',
    for_each (loop_body query_handler) st corpus = Ok st' /\
    forall rel s,
      relation_stats st' !! rel = Some s ->
      (0 <= rs_f1 s <= Float.of_nat (rs_count s))%Q /\
      (rs_count s <= k + length corpus)%nat.
Proof.
  intros Hn. revert k st. induction corpus as [ | tc l IH]; intros k st Hk Hst.
  - exists st. split; [done | ]. simpl. by rewrite Nat.add_0_r.
  - destruct (loop_body_fields query_handler st tc)
      as (st1 & f1 & E1 & Hf & _ & _ & Hr).
    destruct (IH (S k) st1) as (st' & E' & H').
    + simpl in Hk. lia.
    + intros rel s. rewrite Hr, lookup_alter.
      destruct (decide (get_relation_type (question tc) = rel)) as [<- | Ne].
      * destruct (relation_stats st !! get_relation_type (question tc))
          as [s0 | ] eqn:E0; simpl; [ | done].
        intros [= <-]. destruct (Hst _ _ E0) as [[H0 H1] Hc]. simpl.
        split; [ | lia]. unfold Float.add. split.
        -- rewrite <- rnd_0. apply rnd_mono. lra.
        -- rewrite <- (Hn (S (rs_count s0))) by (simpl in Hk; lia).
           apply rnd_mono. rewrite of_nat_succ. lra.
      * intros Es. destruct (Hst _ _ Es) as [Hb Hc]. split; [done | lia].
    + exists st'. simpl. rewrite E1. split; [exact E' | ].
      by replace (k + S (length l))%nat with (S k + length l)%nat by lia.
Qed.

(** Each line of the report is the rounded mean of a bucket with a
    sample, times 100. *)
Lemma relation_report_values (stats : gmap str RelStat) (rels : list str) l :
  relation_report stats rels = Ok l ->
  Forall (fun '(rel, v) =>
            exists s, stats !! rel = Some s /\ (0 < rs_count s)%nat /\
                      v = Float.mul (rnd (rs_f1 s / Float.of_nat (rs_count s))) 100)
         l.
Proof.
  revert l. induction rels as [ | rel rels IH]; intros l; simpl.
  { intros [= <-]. constructor. }
  destruct (stats !! rel) as [stat | ] eqn:Es; [ | apply IH].
  destruct (0 <? rs_count stat)%nat eqn:E; [ | apply IH].
  apply Nat.ltb_lt in E. pose proof (of_nat_pos _ E) as Hp.
  rewrite div_nonzero by (intros E0; rewrite E0 in Hp; by apply Qlt_irrefl in Hp).
  cbn [mbind result_bind].
  destruct (relation_report stats rels) as [rest | ]; cbn [mbind result_bind]; [ | done].
  intros [= <-]. constructor; [ | by apply IH]. by exists stat.
Qed.

Lemma relation_averages_of (corpus : list TestCase) s :
  keeps_nat (Nat.max 100 (length corpus)) ->
  evaluate query_handler corpus = Ok s ->
  Forall (fun '(_, v) => (0 <= v <= 100)%Q) (relation_avg_f1 s).
Proof.
  intros Hn (_ & El & _ & _ & _ & Er)%evaluate_inv.
  assert (H100 : (rnd 100 == 100)%Q) by (apply (Hn 100%nat); lia).
  destruct (relation_f1_bound corpus (Nat.max 100 (length corpus)) 0 init Hn)
    as (st & E & Hb); [lia | | ].
  { intros rel s0. unfold init. cbn [relation_stats].
    intros Hs. apply lookup_insert_Some in Hs as [[_ <-] | [_ Hs]].
    - simpl. split; [split; apply Qle_refl | lia].
    - apply lookup_singleton_Some in Hs as [_ <-].
      simpl. split; [split; apply Qle_refl | lia]. }
  rewrite El in E. injection E as <-.
  apply relation_report_values in Er.
  eapply Forall_impl; [exact Er | ]. intros [rel v] (s0 & Es & Hc & ->).
  destruct (Hb _ _ Es) as [[H0 H1] _].
  pose proof (of_nat_pos _ Hc) as Hp.
  apply percent_range; [done | ]. apply rnd_unit. split.
  - by apply Qle_shift_div_l; [ | rewrite Qmult_0_l].
  - by apply Qle_shift_div_r; [ | rewrite Qmult_1_l].
Qed.

(** X20. As long as the rounding keeps 100 and the integers up to the
    number of cases, the percentages that [evaluate] reports lie between
    0 and 100: the three metrics and the average of each relation. *)
Lemma evaluate_percentages (tc : TestCase) (rest : list TestCase) :
  keeps_nat (Nat.max 100 (length (tc :: rest))) ->
  exists s,
    evaluate query_handler (tc :: rest) = Ok s /\
    (0 <= avg_f1 s <= 100)%Q /\
    (0 <= hits_at_1_rate s <= 100)%Q /\
    (0 <= hdr s <= 100)%Q /\
    Forall (fun '(_, v) => (0 <= v <= 100)%Q) (relation_avg_f1 s).
Proof.
  intros Hn.
  destruct (evaluate_nonempty query_handler (tc :: rest))
    as (_ & s & _ & E & _); [done | ].
  exists s. split; [done | ].
  destruct (percentages_of (tc :: rest) s Hn E) as (H1 & H2 & H3).
  pose proof (relation_averages_of (tc :: rest) s Hn E) as H4. tauto.
Qed.

End Percentages.

(** The rounding of binary64 keeps the integers up to [2 ^ 53]. *)
Lemma binary64_keeps_nat (n : nat) :
  (Z.of_nat n <= 2 ^ 53)%Z -> @keeps_nat binary64 n.
Proof.
  intros Hn k Hk. change (@rnd binary64) with Binary64.round.
  destruct k as [ | k]; [by vm_compute | ].
  assert (Hpos : (0 < Float.of_nat (S k))%Q) by (apply of_nat_pos; lia).
  rewrite (Binary64Facts.round_gt _ Hpos).
  assert (E : (Float.of_nat (S k) == inject_Z (Z.of_nat (S k)) * 2 ^ 0)%Q).
  { unfold Float.of_nat. change (2 ^ 0)%Q with 1%Q. by rewrite Qmult_1_r. }
  rewrite (Binary64Facts.round_pos_comp _ _ Hpos E).
  rewrite Binary64Facts.round_pos_repr by lia. by symmetry.
Qed.

(** ** The question patterns *)

Module PatternFacts.
Import Re.

Lemma matches_cat_inv r1 r2 m :
  matches (Cat r1 r2) m ->
  exists m1 m2, m = m1 ++ m2 /\ matches r1 m1 /\ matches r2 m2.
Proof.
  intros H. inversion H as [ | | | ? ? m1 m2 H1 H2 | | | | | | ]; subst.
  by exists m1, m2.
Qed.

Lemma matches_star_dot m :
  matches (Star Dot) m <-> Forall (fun c => c ≠ Py.NEWLINE) m.
Proof.
  split.
  - intros H. remember (Star Dot) as r eqn:Er.
    induction H as [ | | | | | | | r s1 s2 H1 _ H2 IH | | ]; try done.
    injection Er as ->. apply Forall_app. split; [ | by apply IH].
    inversion H1; subst. by constructor.
  - induction 1 as [ | c m Hc _ IH]; [constructor | ].
    change (c :: m) with ([c] ++ m). constructor; [by constructor | done].
Qed.

Lemma matches_group m : matches (Group (Plus Dot)) m <-> captured m.
Proof.
  unfold captured. split.
  - intros H. inversion H as [ | | | | | | | | | ? ? H' ]; subst.
    inversion H' as [ | | | | | | | | ? s1 s2 H1 H2 | ]; subst.
    inversion H1; subst. split; [done | ].
    constructor; [done | by apply matches_star_dot].
  - intros [Hne H]. destruct m as [ | c m]; [done | ].
    inversion H; subst. constructor. change (c :: m) with ([c] ++ m).
    constructor; [by constructor | by apply matches_star_dot].
Qed.

Lemma search_after l s :
  search (Cat (lit l) (Group (Plus Dot))) s = true <-> group_after l s.
Proof.
  rewrite ReFacts.search_spec. unfold group_after. split.
  - intros (pre & m & post & -> & (m1 & m2 & -> & H1 & H2)%matches_cat_inv).
    apply ReFacts.matches_lit_inv in H1 as ->. apply matches_group in H2.
    exists pre, m2, post. by rewrite <- app_assoc.
  - intros (pre & x & post & -> & Hx). exists pre, (l ++ x), post.
    split; [by rewrite <- app_assoc | ].
    constructor; [apply ReFacts.matches_lit | by apply matches_group].
Qed.

Lemma search_before l s :
  search (Cat (Group (Plus Dot)) (lit l)) s = true <-> group_before l s.
Proof.
  rewrite ReFacts.search_spec. unfold group_before. split.
  - intros (pre & m & post & -> & (m1 & m2 & -> & H1 & H2)%matches_cat_inv).
    apply ReFacts.matches_lit_inv in H2 as ->. apply matches_group in H1.
    exists pre, m1, post. by rewrite <- app_assoc.
  - intros (pre & x & post & -> & Hx). exists pre, (x ++ l), post.
    split; [by rewrite <- app_assoc | ].
    constructor; [by apply matches_group | apply ReFacts.matches_lit].
Qed.

Lemma search_between l1 l2 s :
  search (Cat (lit l1) (Cat (Group (Plus Dot)) (lit l2))) s = true
  <-> group_between l1 l2 s.
Proof.
  rewrite ReFacts.search_spec. unfold group_between. split.
  - intros (pre & m & post & -> & (m1 & m2 & -> & H1 & H2)%matches_cat_inv).
    apply matches_cat_inv in H2 as (x & m3 & -> & Hx & H3).
    apply ReFacts.matches_lit_inv in H1 as ->.
    apply ReFacts.matches_lit_inv in H3 as ->. apply matches_group in Hx.
    exists pre, x, post. by rewrite <- !app_assoc.
  - intros (pre & x & post & -> & Hx). exists pre, (l1 ++ x ++ l2), post.
    split; [by rewrite <- !app_assoc | ].
    constructor; [apply ReFacts.matches_lit | ].
    constructor; [by apply matches_group | apply ReFacts.matches_lit].
Qed.

End PatternFacts.

(** X21. A question is matched exactly when it holds one of the five
    markers with a captured string on the side the pattern asks for: some
    characters other than a newline. *)
Lemma matched_spec (question : str) :
  matched question = true <->
  group_between (u "歌曲") (u "的作词人是") question \/
  group_before (u "是谁唱的") question \/
  group_after (u "谁唱的") question \/
  group_after (u "谁作词的") question \/
  group_before (u "是哪个专辑的") question.
Proof.
  unfold matched, any, patterns. cbn [List.map existsb id].
  rewrite !orb_true_iff, PatternFacts.search_between,
    !PatternFacts.search_before, !PatternFacts.search_after.
  intuition discriminate.
Qed.

Lemma contains_within (sub a b l s : str) :
  l = a ++ sub ++ b ->
  (exists pre post, s = pre ++ l ++ post) -> Py.contains sub s = true.
Proof.
  intros -> (pre & post & ->). apply contains_spec.
  exists (pre ++ a), (b ++ post). by rewrite <- !app_assoc.
Qed.

Lemma tag_lyricist (question : str) :
  Py.contains (u "作词") question = true ->
  get_relation_type question = u "作词".
Proof. intros H. unfold get_relation_type. by rewrite H. Qed.

Lemma tag_tracked (question : str) :
  Py.contains (u "唱") question = true ->
  get_relation_type question = u "作词" \/ get_relation_type question = u "歌手".
Proof.
  intros H. unfold get_relation_type.
  destruct (Py.contains (u "作词") question); [by left | ].
  rewrite H. by right.
Qed.

(** X22. The patterns and the relation tags: a question found by a
    lyricist pattern is tagged [作词]; one found by a singer pattern is
    tagged [作词] or [歌手]; a matched question tagged [其他] is an album
    question. *)
Lemma matched_relation (question : str) :
  (group_between (u "歌曲") (u "的作词人是") question \/ group_after (u "谁作词的") question ->
   get_relation_type question = u "作词") /\
  (group_before (u "是谁唱的") question \/ group_after (u "谁唱的") question ->
   get_relation_type question = u "作词" \/
   get_relation_type question = u "歌手") /\
  (matched question = true -> get_relation_type question = u "其他" ->
   group_before (u "是哪个专辑的") question).
Proof.
  assert (H1 : group_between (u "歌曲") (u "的作词人是") question ->
               get_relation_type question = u "作词").
  { intros (pre & x & post & -> & _). apply tag_lyricist.
    apply (contains_within _ (u "的") (u "人是") (u "的作词人是")); [done | ].
    exists (pre ++ u "歌曲" ++ x), post. by rewrite <- !app_assoc. }
  assert (H4 : group_after (u "谁作词的") question ->
               get_relation_type question = u "作词").
  { intros (pre & x & post & -> & _). apply tag_lyricist.
    apply (contains_within _ (u "谁") (u "的") (u "谁作词的")); [done | ].
    by exists pre, (x ++ post). }
  assert (H2 : group_before (u "是谁唱的") question ->
               get_relation_type question = u "作词" \/
               get_relation_type question = u "歌手").
  { intros (pre & x & post & -> & _). apply tag_tracked.
    apply (contains_within _ (u "是谁") (u "的") (u "是谁唱的")); [done | ].
    exists (pre ++ x), post. by rewrite <- !app_assoc. }
  assert (H3 : group_after (u "谁唱的") question ->
               get_relation_type question = u "作词" \/
               get_relation_type question = u "歌手").
  { intros (pre & x & post & -> & _). apply tag_tracked.
    apply (contains_within _ (u "谁") (u "的") (u "谁唱的")); [done | ].
    by exists pre, (x ++ post). }
  assert (Hn1 : u "其他" ≠ u "作词") by (by vm_compute).
  assert (Hn2 : u "其他" ≠ u "歌手") by (by vm_compute).
  split; [tauto | ]. split; [tauto | ].
  intros Hm Ht. unfold matched, any, patterns in Hm.
  cbn [List.map existsb id] in Hm.
  rewrite !orb_true_iff, PatternFacts.search_between,
    !PatternFacts.search_before, !PatternFacts.search_after in Hm.
  rewrite Ht in *.
  destruct Hm as [H | [H | [H | [H | [H | H]]]]]; [ | | | | done | done].
  - by specialize (H1 H).
  - destruct (H2 H); done.
  - destruct (H3 H); done.
  - by specialize (H4 H).
Qed.

(** ** Edge cases, order and repetition *)

Section Edge.
Context {U : Unicode} {R : Rounding}.
Variable query_handler : str -> Response.

Lemma classify_error_no_gold q (s : list str) m :
  classify_error q [] s m ≠ u "correct".
Proof.
  intros (_ & Hne & Hs)%classify_error_correct.
  by apply set_of_nil in Hs.
Qed.


(** X14. When the system reports a state other than 0 its data is not
    read: the case has no system answer, is no hit, is classified
    [pattern_mismatch] or [kg_missing], and scores [1.0] if the gold
    answers have no token and [0.0] otherwise. *)
Lemma miss_case (tc : TestCase) :
  state (query_handler (question tc)) ≠ 0%Z ->
  system_answer query_handler (question tc) = [] /\
  case_hit query_handler tc = false /\
  (case_category query_handler tc = u "pattern_mismatch" \/
   case_category query_handler tc = u "kg_missing") /\
  answer_f1 (Py.join (u ", ") (system_answer query_handler (question tc)))
            (golden_answer tc)
  = Ok (if decide (normalize_answer (Py.join (u " ") (golden_answer tc)) = ∅)
        then 1 else 0)%Q.
Proof.
  intros Hs.
  assert (E : system_answer query_handler (question tc) = []).
  { unfold system_answer. by rewrite (proj2 (Z.eqb_neq _ _) Hs). }
  unfold case_hit, case_category. rewrite E. split; [done | ]. split; [done | ].
  split.
  - unfold classify_error. destruct (matched (question tc)); [by right | by left].
  - unfold answer_f1. cbn [Py.join normalize_answer].
    destruct (decide _); [by rewrite decide_True | by rewrite decide_True].
Qed.

Lemma count_perm (f : TestCase -> bool) l l' :
  l ≡ₚ l' -> count f l = count f l'.
Proof.
  unfold count. intros H. induction H as [ | x l l' _ IH | x y l | l l' l'' _ IH1 _ IH2 ];
    simpl; [done | | | congruence].
  - destruct (f x); simpl; by rewrite IH.
  - by destruct (f x), (f y).
Qed.

(** X17. The counters do not depend on the order of the test cases. *)
Lemma counters_permutation (corpus corpus' : list TestCase) :
  corpus ≡ₚ corpus' ->
  exists st st',
    for_each (loop_body query_handler) init corpus = Ok st /\
    for_each (loop_body query_handler) init corpus' = Ok st' /\
    hits_at_1 st = hits_at_1 st' /\
    hdr_numerator st = hdr_numerator st' /\
    hdr_denominator st = hdr_denominator st' /\
    error_stats st = error_stats st' /\
    (forall rel s s',
       relation_stats st !! rel = Some s ->
       relation_stats st' !! rel = Some s' -> rs_count s = rs_count s').
Proof.
  intros Hp.
  destruct (loop_counts query_handler corpus init) as (st & E & Hh & Hd & Hn).
  destruct (loop_counts query_handler corpus' init) as (st' & E' & Hh' & Hd' & Hn').
  exists st, st'. split; [done | ]. split; [done | ].
  rewrite Hh, Hh', Hd, Hd', Hn, Hn', !(count_perm _ _ _ Hp).
  split; [done | ]. split; [done | ]. split; [done | ]. split.
  - destruct (error_stats_lookup query_handler corpus) as (s1 & E1 & H1).
    destruct (error_stats_lookup query_handler corpus') as (s2 & E2 & H2).
    rewrite E in E1. injection E1 as <-. rewrite E' in E2. injection E2 as <-.
    apply map_eq. intros c. apply option_eq. intros n.
    by rewrite H1, H2, (count_perm _ _ _ Hp).
  - destruct (relation_stats_from query_handler corpus init) as (s1 & E1 & H1).
    destruct (relation_stats_from query_handler corpus' init) as (s2 & E2 & H2).
    rewrite E in E1. injection E1 as <-. rewrite E' in E2. injection E2 as <-.
    intros rel s s' Hs Hs'. specialize (H1 rel). specialize (H2 rel).
    destruct (relation_stats init !! rel) as [s0 | ].
    + destruct H1 as (x & Ex & _ & _ & Hx). destruct H2 as (y & Ey & _ & _ & Hy).
      rewrite Hs in Ex. injection Ex as <-. rewrite Hs' in Ey. injection Ey as <-.
      by rewrite Hx, Hy, (count_perm _ _ _ Hp).
    + congruence.
Qed.




End Edge.

Lemma latin_cjk_separators : @plain_separators Tables.latin_cjk.
Proof.
  split; [ | by vm_compute]. intros a b. apply List.map_app.
Qed.

(** ** Runs on concrete inputs

    With Python's floats ([binary64]) and the tables [Tables.latin_cjk]. *)

(** Settles a decidable statement about concrete data by evaluation. *)
Ltac by_evaluation :=
  lazymatch goal with
  | |- ?P => apply (bool_decide_unpack P); vm_compute; exact I
  end.

Section Runs.
Let U : Unicode := Tables.latin_cjk.
Let R : Rounding := binary64.
Existing Instance U.
Existing Instance R.

(** Both scores of the pair of C8 are the float [0.6666666666666666]. *)
Lemma answer_f1_pair_values :
  answer_f1 (u "a b") [u "a"]
  = Ok (6004799503160661 # 9007199254740992)%Q /\
  answer_f1 (u "a") [u "a"; u "b"]
  = Ok (6004799503160661 # 9007199254740992)%Q.
Proof. split; by vm_compute. Qed.

(** The four branches of [answer_f1] are all taken. *)
Lemma answer_f1_cases_run :
  answer_f1 (u "") [] = Ok 1%Q /\
  answer_f1 (u "anything") [] = Ok 0%Q /\
  answer_f1 (u "") [u "x"] = Ok 0%Q /\
  exists v,
    answer_f1 (u "a b") [u "a"] = Ok v /\
    f_measure (rnd (Float.of_nat 1 / Float.of_nat 2))
              (rnd (Float.of_nat 1 / Float.of_nat 1)) v.
Proof.
  split; [ | split; [ | split ] ].
  - destruct (answer_f1_cases (u "") []) as (H & _). apply H; by_evaluation.
  - destruct (answer_f1_cases (u "anything") []) as (_ & H & _).
    apply H; by_evaluation.
  - destruct (answer_f1_cases (u "") [u "x"]) as (_ & _ & H & _).
    apply H; by_evaluation.
  - destruct (answer_f1_cases (u "a b") [u "a"]) as (_ & _ & _ & H).
    apply H; by_evaluation.
Defined.

(** The four categories are all assigned. *)
Lemma classify_error_run :
  classify_error (u "夜曲") [u "周杰伦"] [u "周杰伦"] false
  = u "pattern_mismatch" /\
  classify_error yequ [u "周杰伦"] [] true = u "kg_missing" /\
  classify_error yequ [u "周杰伦"; u "方文山"] [u "方文山"; u "周杰伦"] true
  = u "correct" /\
  classify_error yequ [u "周杰伦"] [u "林俊杰"] true = u "wrong_retrieval".
Proof.
  split; [ | split; [ | split ] ].
  - by apply (classify_error_priority (u "夜曲") [u "周杰伦"] [u "周杰伦"] false).
  - by apply (classify_error_priority yequ [u "周杰伦"] [] true).
  - apply (classify_error_priority yequ [u "周杰伦"; u "方文山"]
             [u "方文山"; u "周杰伦"] true); [done | done | ].
    intros a. rewrite !elem_of_cons, !elem_of_nil. tauto.
  - apply (classify_error_priority yequ [u "周杰伦"] [u "林俊杰"] true);
      [done | done | ].
    intros H. specialize (H (u "林俊杰")).
    rewrite !elem_of_cons, !elem_of_nil in H.
    assert (u "林俊杰" = u "周杰伦" \/ False) as [E | []] by tauto.
    by vm_compute in E.
Defined.

(** Disjoint tokens: the guard on [precision + recall] is what returns. *)
Lemma answer_f1_disjoint_run : answer_f1 (u "周杰伦") [u "方文山"] = Ok 0%Q.
Proof. apply (answer_f1_disjoint (u "周杰伦") [u "方文山"]); by_evaluation. Defined.

(** Case and punctuation do not count for the score. *)
Lemma answer_f1_same_tokens_run :
  exists v, answer_f1 (u "Jay Chou!") [u "jay"; u "chou"] = Ok v /\ (v == 1)%Q.
Proof.
  apply (answer_f1_same_tokens (u "Jay Chou!") [u "jay"; u "chou"]).
  by_evaluation.
Defined.


(** Hits@1 compares the strings as they are: a different case is a miss,
    though the tokens are the same. *)
Lemma hit_raw_strings_run :
  hit [u "Jay Chou"] [u "jay chou"] = false /\
  hit [u "周杰伦"; u "Jay Chou"] [u "Jay Chou"] = true /\
  hit [] [u "Jay Chou"] = false.
Proof. repeat split; by vm_compute. Qed.

(** Punctuation and case are gone from the tokens. *)
Lemma normalize_answer_word_tokens_run :
  u "hello" ≠ [] /\
  Forall (fun c => word_char c /\ isspace c = false) (u "hello").
Proof.
  apply (normalize_answer_word_tokens (u "Hello, World!") (u "hello"));
    by_evaluation.
Defined.

(** A baseline that gives the gold answer [Jay Chou] word for word is
    counted as wrong: the answer has a space. *)
Lemma llm_correct_never_run : llm_correct (u "Jay Chou") [u "Jay Chou"] = false.
Proof.
  apply (llm_correct_never (u "Jay Chou") [u "Jay Chou"] (u "Jay Chou")).
  - by_evaluation.
  - by_evaluation.
  - right. exists Py.SPACE. split; [by_evaluation | left; by_evaluation].
Defined.




(** A corpus of two cases, with a system that always answers [周杰伦]:
    the first case is answered correctly where the baseline was wrong,
    the second question matches no pattern. *)
Definition sample_handler (question : str) : Response :=
  {| state := 0; data := [u "周杰伦"] |}.

Definition sample_corpus : list TestCase :=
  [ {| question := u "谁唱的夜曲"; golden_answer := [u "周杰伦"];
       llm_answer := u "林俊杰" |};
    {| question := u "夜曲的作词"; golden_answer := [u "方文山"];
       llm_answer := u "方文山" |} ].

(** What a run reports, read off the result. *)
Definition on_ok {A B : Type} (f : A -> B) (r : result A) : option B :=
  match r with
  | Ok a => Some (f a)
  | Raise _ => None
  end.

Lemma evaluate_sample_run :
  let run := evaluate sample_handler sample_corpus in
  on_ok (fun s => (Qred (avg_f1 s), Qred (hits_at_1_rate s), Qred (hdr s))) run
  = Some (50, 50, 100)%Q /\
  on_ok (fun s => (hits_at_1 (totals s), hdr_numerator (totals s),
                   hdr_denominator (totals s))) run
  = Some (1, 1, 1)%nat /\
  on_ok (fun s => List.map (fun c => error_stats (totals s) !! c) categories) run
  = Some [Some 1; None; Some 1; None]%nat /\
  on_ok (fun s => List.map (fun '(rel, f1) => (rel, Qred f1))
                    (relation_avg_f1 s)) run
  = Some [(u "歌手", 100%Q); (u "作词", 0%Q)].
Proof. repeat split; vm_compute; reflexivity. Qed.


(** A system that reports a failure, with the right answer in its data. *)
Definition miss_handler (question : str) : Response :=
  {| state := 1; data := [u "周杰伦"] |}.

Lemma miss_case_run :
  let tc := {| question := u "谁唱的夜曲"; golden_answer := [u "周杰伦"];
               llm_answer := u "林俊杰" |} in
  system_answer miss_handler (question tc) = [] /\
  case_hit miss_handler tc = false /\
  (case_category miss_handler tc = u "pattern_mismatch" \/
   case_category miss_handler tc = u "kg_missing") /\
  answer_f1 (Py.join (u ", ") (system_answer miss_handler (question tc)))
            (golden_answer tc)
  = Ok (if decide (normalize_answer (Py.join (u " ") (golden_answer tc)) = ∅)
        then 1 else 0)%Q.
Proof.
  by apply (miss_case miss_handler
              {| question := u "谁唱的夜曲"; golden_answer := [u "周杰伦"];
                 llm_answer := u "林俊杰" |}).
Defined.


(** The sample, and the sample in reverse order. *)
Lemma counters_permutation_run :
  exists st st',
    for_each (loop_body sample_handler) init sample_corpus = Ok st /\
    for_each (loop_body sample_handler) init (rev sample_corpus) = Ok st' /\
    hits_at_1 st = hits_at_1 st' /\
    hdr_numerator st = hdr_numerator st' /\
    hdr_denominator st = hdr_denominator st' /\
    error_stats st = error_stats st' /\
    (forall rel s s',
       relation_stats st !! rel = Some s ->
       relation_stats st' !! rel = Some s' -> rs_count s = rs_count s').
Proof.
  apply (counters_permutation sample_handler sample_corpus (rev sample_corpus)).
  apply Permutation_rev.
Defined.

(** The percentages of the sample, in binary64. *)
Lemma evaluate_percentages_run :
  exists s,
    evaluate sample_handler sample_corpus = Ok s /\
    (0 <= avg_f1 s <= 100)%Q /\
    (0 <= hits_at_1_rate s <= 100)%Q /\
    (0 <= hdr s <= 100)%Q /\
    Forall (fun '(_, v) => (0 <= v <= 100)%Q) (relation_avg_f1 s).
Proof.
  apply (evaluate_percentages sample_handler
           {| question := u "谁唱的夜曲"; golden_answer := [u "周杰伦"];
              llm_answer := u "林俊杰" |}
           [ {| question := u "夜曲的作词"; golden_answer := [u "方文山"];
                llm_answer := u "方文山" |} ]).
  apply binary64_keeps_nat. by vm_compute.
Defined.

End Runs.
